(** * graph-book: contact store resolvers, client data layer, avatar palette
      and create-form validation

    A shallow embedding of
    - the GraphQL resolvers (resolvers/resolvers.js of the server),
    - the React context that wraps the Apollo hooks
      (mobile/contexts/ContactsContext.tsx),
    - the avatar colour helper (mobile/lib/avatar.ts),
    - the validation of the "Add Contact" screen of the mobile client,
    together with the properties the specification states about them. *)

From stdpp Require Import base option list numbers strings.
From Stdlib Require Import NArith Ascii Sorted.

#[local] Open Scope N_scope.

(** ** JavaScript strings

    A JavaScript string is a sequence of UTF-16 code units; [charCodeAt]
    returns such a unit.  Code units are kept as [N]. *)

Abbreviation char16 := N (only parsing).
Abbreviation jsstring := (list N) (only parsing).

(** [str "abc"] is the JavaScript string with the code units of an ASCII
    literal; it is only used to write examples. *)
Definition str (s : string) : jsstring :=
  map N_of_ascii (String.list_ascii_of_string s).

(** Outcome of an awaited promise: fulfilled with a value or rejected. *)
Inductive exn : Type :=
  | Error (message : string)      (* [throw new Error(message)] *)
  | ValidationError               (* mongoose: a schema validator failed *)
  | DuplicateKey                  (* MongoDB E11000 on the [_id] index *)
  | NetworkError.                 (* the request or its response was lost *)

Inductive result (A : Type) : Type :=
  | Ok (a : A)
  | Err (e : exn).
Arguments Ok {A} a.
Arguments Err {A} e.

(** The Contact entity, as the schema declares it and as the documents of
    the collection hold it.  Timestamps are milliseconds since the epoch. *)
Record Contact : Type := mkContact {
  _id : jsstring;
  name : jsstring;
  email : jsstring;
  phone : jsstring;
  createdAt : N;
  updatedAt : N
}.

(** * The resolver layer *)
Module Server.

(** The collection: its documents in insertion order. *)
Abbreviation Store := (list Contact) (only parsing).

(** Resolvers are [async] functions over the collection: a state and error
    monad. *)
Definition M (A : Type) : Type := Store -> Store * result A.

Definition ret {A} (a : A) : M A := fun st => (st, Ok a).
Definition throw {A} (e : exn) : M A := fun st => (st, Err e).
Definition bind {A B} (m : M A) (k : A -> M B) : M B :=
  fun st =>
    match m st with
    | (st', Ok a) => k a st'
    | (st', Err e) => (st', Err e)
    end.

Notation "x <- 'await' m ;; k" := (bind m (fun x => k))
  (at level 100, m at next level, right associativity).
Notation "'await' m ;; k" := (bind m (fun _ => k))
  (at level 100, m at next level, right associativity).

(** ** The store operations the resolvers call (mongoose model methods) *)

(** First document whose [_id] is [id].  An identifier is an opaque
    string here, compared as such: the collection's identifier type is
    declared by the schema, and a string that type would refuse to cast is
    not an identifier. *)
Fixpoint lookupId (id : jsstring) (st : Store) : option Contact :=
  match st with
  | [] => None
  | c :: rest => if decide (_id c = id) then Some c else lookupId id rest
  end.

(** [Contact.find()] *)
Definition find : M (list Contact) := fun st => (st, Ok st).

(** [Contact.findById(id)]: the document, or [null]. *)
Definition findById (id : jsstring) : M (option Contact) :=
  fun st => (st, Ok (lookupId id st)).

(** The update document [{ name, email, phone, updatedAt }].  A key whose
    value is [undefined] is dropped by mongoose when it casts the update,
    so only the keys that are present are written. *)
Record UpdateDoc : Type := mkUpdate {
  u_name : option jsstring;
  u_email : option jsstring;
  u_phone : option jsstring;
  u_updatedAt : option N
}.

Definition applyUpdate (u : UpdateDoc) (c : Contact) : Contact :=
  {| _id := _id c;
     name := default (name c) (u_name u);
     email := default (email c) (u_email u);
     phone := default (phone c) (u_phone u);
     createdAt := createdAt c;
     updatedAt := default (updatedAt c) (u_updatedAt u) |}.

Fixpoint updateFirst (id : jsstring) (u : UpdateDoc) (st : Store)
  : Store * option Contact :=
  match st with
  | [] => ([], None)
  | c :: rest =>
      if decide (_id c = id) then
        let c' := applyUpdate u c in (c' :: rest, Some c')
      else
        let '(rest', r) := updateFirst id u rest in (c :: rest', r)
  end.

(** [Contact.findByIdAndUpdate(id, update, { new: true })]: updates the
    document in place and resolves to the document after the update, or to
    [null] when there is none. *)
Definition findByIdAndUpdate (id : jsstring) (u : UpdateDoc)
  : M (option Contact) :=
  fun st => let '(st', r) := updateFirst id u st in (st', Ok r).

Fixpoint deleteFirst (id : jsstring) (st : Store) : Store * option Contact :=
  match st with
  | [] => ([], None)
  | c :: rest =>
      if decide (_id c = id) then (rest, Some c)
      else let '(rest', r) := deleteFirst id rest in (c :: rest', r)
  end.

(** [Contact.findByIdAndDelete(id)]: removes the document and resolves to
    it, or to [null] when there is none. *)
Definition findByIdAndDelete (id : jsstring) : M (option Contact) :=
  fun st => let '(st', r) := deleteFirst id st in (st', Ok r).

Section Model.

(** The validators of the Contact schema.  The schema is declared in
    models/Contact.js, which is not among the sources; the resolvers do not
    depend on which validators it declares. *)
Variable validators : Contact -> bool.

(** Modelled from the spec: models/Contact.js (the mongoose model behind
    [new Contact] and [save]) is missing.  "Lifecycle: created by the
    create operation (store assigns [id], sets both timestamps to "now")".
    [oid] is the identifier generated for the new document and [now] the
    clock at creation. *)
Definition newContact (oid : jsstring) (now : N)
    (name email phone : jsstring) : Contact :=
  {| _id := oid; name := name; email := email; phone := phone;
     createdAt := now; updatedAt := now |}.

(** Modelled from the spec: [contact.save()] of the missing model.  The
    document is validated against the schema and inserted; the collection
    keeps [_id] unique, so inserting a second document under an identifier
    in use is rejected. *)
Definition save (c : Contact) : M unit :=
  fun st =>
    if negb (validators c) then (st, Err ValidationError)
    else if lookupId (_id c) st is Some _ then (st, Err DuplicateKey)
    else (st ++ [c], Ok ()).

(** ** The resolvers (resolvers/resolvers.js) *)

Definition getContacts : M (list Contact) := find.

Definition getContact (id : jsstring) : M (option Contact) := findById id.

Definition createContact (oid : jsstring) (now : N)
    (name email phone : jsstring) : M Contact :=
  let contact := newContact oid now name email phone in
  await save contact ;;
  ret contact.

End Model.

(** [updateContact]: [name], [email] and [phone] are optional arguments, so
    each is a string or absent ([undefined] after destructuring; an
    explicit [null] is not modelled); [now] is the value of [new Date()]. *)
Definition updateContact (now : N) (id : jsstring)
    (name email phone : option jsstring) : M Contact :=
  contact <- await findByIdAndUpdate id
    {| u_name := name; u_email := email; u_phone := phone;
       u_updatedAt := Some now |} ;;
  match contact with
  | None => throw (Error "Contact not found")
  | Some contact => ret contact
  end.

Definition deleteContact (id : jsstring) : M bool :=
  result <- await findByIdAndDelete id ;;
  ret (bool_decide (is_Some result)).

(** The update document that does what [u1] and then [u2] do: a key of
    [u2] wins over the same key of [u1]. *)
Definition thenUpdate (u1 u2 : UpdateDoc) : UpdateDoc :=
  {| u_name := u_name u2 ∪ u_name u1;
     u_email := u_email u2 ∪ u_email u1;
     u_phone := u_phone u2 ∪ u_phone u1;
     u_updatedAt := u_updatedAt u2 ∪ u_updatedAt u1 |}.

(** Identifiers are unique across the collection. *)
Definition unique_ids (st : Store) : Prop := NoDup (map _id st).

(** The collections the resolvers can build from the empty one. *)
Inductive reachable (validators : Contact -> bool) : Store -> Prop :=
  | reach_empty : reachable validators []
  | reach_create oid now n e p st :
      reachable validators st ->
      reachable validators (createContact validators oid now n e p st).1
  | reach_update now id n e p st :
      reachable validators st ->
      reachable validators (updateContact now id n e p st).1
  | reach_delete id st :
      reachable validators st ->
      reachable validators (deleteContact id st).1.

End Server.

(** * The client data layer (mobile/contexts/ContactsContext.tsx) *)
Module Client.

(** [ContactDraft = Pick<Contact, "name" | "email" | "phone">] *)
Record ContactDraft : Type := mkDraft {
  draft_name : jsstring;
  draft_email : jsstring;
  draft_phone : jsstring
}.

(** The functions the Apollo hooks hand to the provider, indexed by the
    type of the data they resolve to: the three [mutate] functions of
    [useMutation] and the [refetch] of [useQuery(GET_CONTACTS)]. *)
Inductive Hook : Type -> Type :=
  | createContact (variables : ContactDraft) : Hook Contact
  | updateContactMutation (id : jsstring) (variables : ContactDraft)
      : Hook Contact
  | deleteContactMutation (id : jsstring) : Hook bool
  | refetch : Hook (list Contact).

(** What a fulfilled hook call resolves to; [data] is optional in its
    TypeScript type. *)
Record FetchResult (X : Type) : Type := mkFetchResult { data : option X }.
Arguments mkFetchResult {X} data.
Arguments data {X} f.

(** An [async] function of the provider: it returns, or awaits a hook call
    and goes on with what the call resolved to.  A rejected call rejects
    the whole function, as no [await] of the provider is inside a [try]. *)
Inductive Async (A : Type) : Type :=
  | Return (a : A)
  | Await {X : Type} (h : Hook X) (k : FetchResult X -> Async A).
Arguments Return {A} a.
Arguments Await {A X} h k.

Fixpoint andThen {A B} (p : Async A) (q : A -> Async B) : Async B :=
  match p with
  | Return a => q a
  | Await h k => Await h (fun r => andThen (k r) q)
  end.

Notation "x <- 'await' p ;; q" := (andThen p (fun x => q))
  (at level 100, p at next level, right associativity).
Notation "'await' p ;; q" := (andThen p (fun _ => q))
  (at level 100, p at next level, right associativity).

Definition call {X} (h : Hook X) : Async (FetchResult X) :=
  Await h (fun r => Return r).

(** ** The operations of the context *)

Definition refreshContacts : Async unit :=
  await call refetch ;;
  Return ().

Definition addContact (draft : ContactDraft) : Async (option jsstring) :=
  response <- await call (createContact
    {| draft_name := draft_name draft;
       draft_email := draft_email draft;
       draft_phone := draft_phone draft |}) ;;
  await refreshContacts ;;
  Return (_id <$> data response).

Definition updateContact (id : jsstring) (draft : ContactDraft)
  : Async unit :=
  await call (updateContactMutation id
    {| draft_name := draft_name draft;
       draft_email := draft_email draft;
       draft_phone := draft_phone draft |}) ;;
  await refreshContacts ;;
  Return ().

Definition deleteContact (id : jsstring) : Async unit :=
  await call (deleteContactMutation id) ;;
  await refreshContacts ;;
  Return ().

(** ** The world the operations run in *)

(** The server's collection, and [data?.getContacts] of the list query:
    the contact list the provider holds, absent before the first fetch. *)
Record World : Type := mkWorld {
  server : list Contact;
  cached : option (list Contact)
}.

(** [const contacts = data?.getContacts ?? []] *)
Definition contacts (w : World) : list Contact := default [] (cached w).

(** [getContactById]: [contacts.find((contact) => contact.id === id)] *)
Definition getContactById (w : World) (id : jsstring) : option Contact :=
  snd <$> list_find (fun contact => _id contact = id) (contacts w).

(** What happens to one request on the way: nothing, it never reaches the
    server, or the server handles it and the answer never comes back. *)
Inductive transport : Type := Delivered | RequestLost | ResponseLost.

#[global] Instance transport_eq_dec : EqDecision transport.
Proof. solve_decision. Defined.

(** What the environment decides for one request: the transport, the
    server's clock and the identifier the server would give a new
    document. *)
Record Env : Type := mkEnv {
  net : transport;
  clock : N;
  objectId : jsstring
}.

(** The operation documents sent to the endpoint. *)
Inductive Sent : Type :=
  | CREATE_CONTACT (name email phone : jsstring)
  | UPDATE_CONTACT (id name email phone : jsstring)
  | DELETE_CONTACT (id : jsstring)
  | GET_CONTACTS.

Definition document {X} (h : Hook X) : Sent :=
  match h with
  | createContact v =>
      CREATE_CONTACT (draft_name v) (draft_email v) (draft_phone v)
  | updateContactMutation id v =>
      UPDATE_CONTACT id (draft_name v) (draft_email v) (draft_phone v)
  | deleteContactMutation id => DELETE_CONTACT id
  | refetch => GET_CONTACTS
  end.

(** The store of [new InMemoryCache()] is normalised: an object with an
    [id] is one entity.  Writing a Contact that a mutation returned
    replaces the fields of that entity wherever the cached list refers to
    it, and adds no entry to the list. *)
Definition writeEntity (c : Contact) (l : list Contact) : list Contact :=
  map (fun x => if decide (_id x = _id c) then c else x) l.

(** What a fulfilled call writes: a mutation result is merged by entity,
    the fetched list replaces [data.getContacts]. *)
Definition writeResult {X} (h : Hook X)
  : X -> option (list Contact) -> option (list Contact) :=
  match h in Hook X return X -> option (list Contact) -> option (list Contact)
  with
  | createContact _ => fun c cache => writeEntity c <$> cache
  | updateContactMutation _ _ => fun c cache => writeEntity c <$> cache
  | deleteContactMutation _ => fun _ cache => cache
  | refetch => fun l _ => Some l
  end.

Section Run.

Variable validators : Contact -> bool.

(** The resolver that answers a request. *)
Definition resolve {X} (e : Env) (h : Hook X) : Server.M X :=
  match h in Hook X return Server.M X with
  | createContact v =>
      Server.createContact validators (objectId e) (clock e)
        (draft_name v) (draft_email v) (draft_phone v)
  | updateContactMutation id v =>
      Server.updateContact (clock e) id
        (Some (draft_name v)) (Some (draft_email v)) (Some (draft_phone v))
  | deleteContactMutation id => Server.deleteContact id
  | refetch => Server.getContacts
  end.

(** One hook call: the request travels, the resolver runs, the answer
    travels back and is written to the cache.  A rejected call writes
    nothing. *)
Definition exchange {X} (e : Env) (h : Hook X) (w : World)
  : World * result (FetchResult X) :=
  match net e with
  | RequestLost => (w, Err NetworkError)
  | ResponseLost =>
      let '(st', _) := resolve e h (server w) in
      ({| server := st'; cached := cached w |}, Err NetworkError)
  | Delivered =>
      match resolve e h (server w) with
      | (st', Ok x) =>
          ({| server := st'; cached := writeResult h x (cached w) |},
           Ok {| data := Some x |})
      | (st', Err ex) => ({| server := st'; cached := cached w |}, Err ex)
      end
  end.

(** Running an operation: [env n] is the environment of its [n]-th hook
    call.  The result is the documents sent, in order, the world at the
    end and what the promise settles to. *)
Fixpoint run {A} (p : Async A) (env : nat -> Env) (n : nat) (w : World)
  : list Sent * World * result A :=
  match p with
  | Return a => ([], w, Ok a)
  | Await h k =>
      match exchange (env n) h w with
      | (w', Ok r) =>
          let '(sent, w'', res) := run (k r) env (S n) w' in
          (document h :: sent, w'', res)
      | (w', Err ex) => ([document h], w', Err ex)
      end
  end.

(** A hook call is rejected when the request or its answer is lost, or
    when the resolver throws. *)
Definition rejected {X} (e : Env) (h : Hook X) (w : World) : Prop :=
  net e <> Delivered \/
  exists st' ex, resolve e h (server w) = (st', Err ex).

End Run.

End Client.

(** * White space, [trim] and the numbers of JavaScript *)

(** The code units [String.prototype.trim] strips and the class [\s]
    matches: WhiteSpace and LineTerminator of ECMAScript. *)
Definition isWhiteSpace (c : N) : bool :=
  (9 <=? c) && (c <=? 13)                (* TAB LF VT FF CR *)
  || (c =? 32) || (c =? 160)             (* SP, NBSP *)
  || (c =? 5760)                         (* U+1680 *)
  || (8192 <=? c) && (c <=? 8202)        (* U+2000 .. U+200A *)
  || (c =? 8232) || (c =? 8233)          (* LS, PS *)
  || (c =? 8239) || (c =? 8287)          (* U+202F, U+205F *)
  || (c =? 12288) || (c =? 65279).       (* U+3000, U+FEFF *)

Fixpoint trimStart (s : jsstring) : jsstring :=
  match s with
  | [] => []
  | c :: s' => if isWhiteSpace c then trimStart s' else s
  end.

Definition trimEnd (s : jsstring) : jsstring := rev (trimStart (rev s)).

Definition trim (s : jsstring) : jsstring := trimEnd (trimStart s).

(** A number, as far as the avatar helper needs them: a natural number or
    [NaN]. *)
Inductive number : Type := NaN | Num (n : N).

(** [s.charCodeAt(0)] *)
Definition charCodeAt0 (s : jsstring) : number :=
  match s with
  | [] => NaN
  | c :: _ => Num c
  end.

(** [x % n] for a positive [n] *)
Definition remainder (x : number) (n : N) : number :=
  match x with
  | NaN => NaN
  | Num v => Num (v mod n)
  end.

(** [s.split(/\s+/)]: the pieces between the runs of white space.  A run
    at the very start or the very end leaves an empty piece there, and the
    empty string splits into one empty piece.  [inSeparator] tells that the
    characters just read were white space; [piece] is the piece being
    read. *)
Fixpoint splitGo (inSeparator : bool) (piece : jsstring) (s : jsstring)
  : list jsstring :=
  match s with
  | [] => [piece]
  | c :: s' =>
      if isWhiteSpace c then
        if inSeparator then splitGo true [] s'
        else piece :: splitGo true [] s'
      else splitGo false (piece ++ [c]) s'
  end.

Definition splitSpaces (s : jsstring) : list jsstring := splitGo false [] s.

(** [parts.join(sep)] *)
Fixpoint join (sep : jsstring) (parts : list jsstring) : jsstring :=
  match parts with
  | [] => []
  | [part] => part
  | part :: rest => part ++ sep ++ join sep rest
  end.

(** [s.startsWith(prefix)] and [s.includes(needle)] *)
Fixpoint startsWith (s prefix : jsstring) : bool :=
  match prefix, s with
  | [], _ => true
  | _ :: _, [] => false
  | p :: prefix', c :: s' => (c =? p) && startsWith s' prefix'
  end.

Fixpoint includes (s needle : jsstring) : bool :=
  startsWith s needle ||
  match s with
  | [] => false
  | _ :: s' => includes s' needle
  end.

(** [Boolean(s)] for a string *)
Definition truthy (s : jsstring) : bool := negb (bool_decide (s = [])).

(** * The avatar palette (mobile/lib/avatar.ts) *)
Module Avatar.

Record Colors : Type := mkColors {
  backgroundColor : string;
  textColor : string
}.

Definition palette : list Colors := [
  {| backgroundColor := "#E0E7FF"; textColor := "#3730A3" |};
  {| backgroundColor := "#FEF3C7"; textColor := "#B45309" |};
  {| backgroundColor := "#DCFCE7"; textColor := "#047857" |};
  {| backgroundColor := "#FDE68A"; textColor := "#92400E" |};
  {| backgroundColor := "#FCE7F3"; textColor := "#9D174D" |};
  {| backgroundColor := "#E2E8F0"; textColor := "#1E293B" |};
  {| backgroundColor := "#E0F2FE"; textColor := "#0369A1" |};
  {| backgroundColor := "#F3E8FF"; textColor := "#7C3AED" |}
].

(** [palette[index]]: [undefined] for [NaN] and out of range. *)
Definition at_index (index : number) : option Colors :=
  match index with
  | NaN => None
  | Num i => palette !! N.to_nat i
  end.

Section WithCaseMapping.

(** [String.prototype.toUpperCase], the case mapping of Unicode.  Nothing
    is assumed of it. *)
Variable toUpperCase : jsstring -> jsstring.

(** [palette[index] ?? palette[0]] has type [Colors | undefined] here:
    that the result is never [undefined] is a property, proved below. *)
Definition getAvatarPalette (name : jsstring) : option Colors :=
  let firstChar := head (trim name) in
  let charCode :=
    match firstChar with
    | Some c => charCodeAt0 (toUpperCase [c])
    | None => Num 0
    end in
  let index :=
    if negb (length palette =? 0)%nat
    then remainder charCode (N.of_nat (length palette))
    else Num 0 in
  match at_index index with
  | Some colors => Some colors
  | None => at_index (Num 0)
  end.

(** [getInitials]: the first characters of the first two words, in upper
    case. *)
Definition getInitials (name : jsstring) : jsstring :=
  toUpperCase
    (join []
       (take 2
          (map (fun part => take 1 part)
             (filter (fun part => truthy part = true)
                (splitSpaces (trim name)))))).

End WithCaseMapping.

(** The case mapping restricted to ASCII, to run examples. *)
Definition asciiUpperCase (s : jsstring) : jsstring :=
  map (fun c => if (97 <=? c) && (c <=? 122) then c - 32 else c) s.

End Avatar.

(** * What a screen does besides calling the data layer *)
Inductive UiEffect : Type :=
  | Alert_alert (title message : string)
  | router_replace (pathname : string) (id : option jsstring)
  | router_back.

(** * The "Add Contact" screen ([NewContactScreen]) *)
Module NewContactScreen.

Record FormState : Type := mkForm {
  form_name : jsstring;
  form_email : jsstring;
  form_phone : jsstring
}.

(** [keyof FormState] *)
Inductive Key : Type := name_key | email_key | phone_key.

(** [Partial<Record<keyof FormState, string>>]: the keys that are set,
    in the order they were set, each with its message. *)
Abbreviation Errors := (list (Key * string)) (only parsing).

(** ** The regular expression of the e-mail check *)

Inductive atom : Type :=
  | NonSpace                    (* [\S] *)
  | Lit (c : N).                (* a literal character *)

Inductive item : Type :=
  | One (a : atom)              (* [a] *)
  | OneOrMore (a : atom).       (* [a+] *)

(** A pattern [^ item ... item $]. *)
Abbreviation regex := (list item) (only parsing).

Definition accepts (a : atom) (c : N) : bool :=
  match a with
  | NonSpace => negb (isWhiteSpace c)
  | Lit c' => c =? c'
  end.

(** [a+] followed by [k]: the repetition takes as much as it can and gives
    back one character at a time. *)
Fixpoint matchPlus (a : atom) (k : jsstring -> bool) (s : jsstring) : bool :=
  match s with
  | [] => false
  | c :: s' => accepts a c && (matchPlus a k s' || k s')
  end.

(** [test] for an anchored pattern. *)
Fixpoint test (r : regex) (s : jsstring) : bool :=
  match r with
  | [] => bool_decide (s = [])
  | One a :: r' =>
      match s with
      | [] => false
      | c :: s' => accepts a c && test r' s'
      end
  | OneOrMore a :: r' => matchPlus a (test r') s
  end.

(** [/^\S+@\S+\.\S+$/] *)
Definition emailPattern : regex :=
  [OneOrMore NonSpace; One (Lit 64); OneOrMore NonSpace; One (Lit 46);
   OneOrMore NonSpace].

(** ** [validate] *)

(** [!s] for a string *)
Definition falsy (s : jsstring) : bool := bool_decide (s = []).

(** [validate] reads the form, calls [setErrors(nextErrors)] and returns
    the payload or [null]: the result is the new [errors] state and the
    returned value. *)
Definition validate (form : FormState)
  : Errors * option Client.ContactDraft :=
  let trimmedName := trim (form_name form) in
  let trimmedEmail := trim (form_email form) in
  let trimmedPhone := trim (form_phone form) in
  let nextErrors : Errors := [] in
  let nextErrors :=
    if falsy trimmedName
    then nextErrors ++ [(name_key, "Name is required"%string)]
    else nextErrors in
  let nextErrors :=
    if negb (falsy trimmedEmail) && negb (test emailPattern trimmedEmail)
    then nextErrors ++ [(email_key, "Enter a valid email"%string)]
    else nextErrors in
  let nextErrors :=
    if falsy trimmedPhone
    then nextErrors ++ [(phone_key, "Phone is required"%string)]
    else nextErrors in
  if (0 <? length nextErrors)%nat then (nextErrors, None)
  else
    (nextErrors,
     Some {| Client.draft_name := trimmedName;
             Client.draft_email := trimmedEmail;
             Client.draft_phone := trimmedPhone |}).

(** What the pattern denotes: the strings that split into one piece per
    item. *)
Inductive matches : regex -> jsstring -> Prop :=
  | matches_end : matches [] []
  | matches_one a c r s :
      accepts a c = true -> matches r s -> matches (One a :: r) (c :: s)
  | matches_more a cs r s :
      cs <> [] -> Forall (fun c => accepts a c = true) cs -> matches r s ->
      matches (OneOrMore a :: r) (cs ++ s).


(** ** [handleSave] *)

(** The state of the screen: [form], [errors] and [isSubmitting]. *)
Record Screen : Type := mkScreen {
  form : FormState;
  errors : Errors;
  isSubmitting : bool
}.

Section Handlers.

Variable validators : Contact -> bool.

(** [handleSave]: the documents sent, what the screen did besides, and the
    screen and the world once the handler has settled.  The [catch] takes
    every rejection of [addContact] and the "Missing id" error alike; the
    [finally] clears [isSubmitting]. *)
Definition handleSave (env : nat -> Client.Env) (screen : Screen)
    (w : Client.World)
  : list Client.Sent * list UiEffect * Screen * Client.World :=
  if isSubmitting screen then ([], [], screen, w)
  else
    let '(nextErrors, payload) := validate (form screen) in
    let screen := mkScreen (form screen) nextErrors (isSubmitting screen) in
    match payload with
    | None => ([], [], screen, w)
    | Some payload =>
        let '(sent, w', outcome) :=
          Client.run validators (Client.addContact payload) env 0 w in
        let effects :=
          match outcome with
          | Ok (Some newId) =>
              if truthy newId
              then [router_replace "/contacts/[id]" (Some newId)]
              else [Alert_alert "Something went wrong"
                      "We could not create the contact. Please try again."]
          | Ok None | Err _ =>
              [Alert_alert "Something went wrong"
                 "We could not create the contact. Please try again."]
          end in
        (sent, effects, mkScreen (form screen) nextErrors false, w')
    end.

End Handlers.

End NewContactScreen.

(** * The "Edit Contact" screen (mobile/app/contacts/[id]/edit.tsx) *)
Module EditContactScreen.

Record FormState : Type := mkForm {
  form_name : jsstring;
  form_email : jsstring;
  form_phone : jsstring
}.

Definition emptyForm : FormState := mkForm [] [] [].

(** [params.id]: [string | string[] | undefined] *)
Inductive IdParam : Type :=
  | NoId
  | OneId (id : jsstring)
  | ManyIds (ids : list jsstring).

(** [Array.isArray(contactIdParam) ? contactIdParam[0] : contactIdParam] *)
Definition contactId (contactIdParam : IdParam) : option jsstring :=
  match contactIdParam with
  | ManyIds ids => head ids
  | OneId id => Some id
  | NoId => None
  end.

(** [contactId ? getContactById(contactId) : undefined] *)
Definition contact (w : Client.World) (contactIdParam : IdParam)
  : option Contact :=
  match contactId contactIdParam with
  | Some id => if truthy id then Client.getContactById w id else None
  | None => None
  end.

(** The effect that fills the form from the contact. *)
Definition loadForm (form : FormState) (contact : option Contact)
  : FormState :=
  match contact with
  | Some contact => mkForm (name contact) (email contact) (phone contact)
  | None => form
  end.

Definition validate (form : FormState)
  : list (NewContactScreen.Key * string) * option Client.ContactDraft :=
  let trimmedName := trim (form_name form) in
  let trimmedEmail := trim (form_email form) in
  let trimmedPhone := trim (form_phone form) in
  let nextErrors : list (NewContactScreen.Key * string) := [] in
  let nextErrors :=
    if NewContactScreen.falsy trimmedName
    then nextErrors ++ [(NewContactScreen.name_key, "Name is required"%string)]
    else nextErrors in
  let nextErrors :=
    if negb (NewContactScreen.falsy trimmedEmail)
       && negb (NewContactScreen.test NewContactScreen.emailPattern
                  trimmedEmail)
    then nextErrors
           ++ [(NewContactScreen.email_key, "Enter a valid email"%string)]
    else nextErrors in
  let nextErrors :=
    if NewContactScreen.falsy trimmedPhone
    then nextErrors
           ++ [(NewContactScreen.phone_key, "Phone is required"%string)]
    else nextErrors in
  if (0 <? length nextErrors)%nat then (nextErrors, None)
  else
    (nextErrors,
     Some {| Client.draft_name := trimmedName;
             Client.draft_email := trimmedEmail;
             Client.draft_phone := trimmedPhone |}).

Record Screen : Type := mkScreen {
  form : FormState;
  errors : list (NewContactScreen.Key * string);
  isSubmitting : bool
}.

Section Handlers.

Variable validators : Contact -> bool.

(** [handleSave] *)
Definition handleSave (env : nat -> Client.Env) (contactIdParam : IdParam)
    (screen : Screen) (w : Client.World)
  : list Client.Sent * list UiEffect * Screen * Client.World :=
  match contactId contactIdParam, contact w contactIdParam with
  | Some id, Some _ =>
      if negb (truthy id) || isSubmitting screen then ([], [], screen, w)
      else
        let '(nextErrors, payload) := validate (form screen) in
        let screen := mkScreen (form screen) nextErrors (isSubmitting screen) in
        match payload with
        | None => ([], [], screen, w)
        | Some payload =>
            let '(sent, w', outcome) :=
              Client.run validators (Client.updateContact id payload)
                env 0 w in
            let effects :=
              match outcome with
              | Ok _ => [router_back]
              | Err _ =>
                  [Alert_alert "Update failed"
                     "We could not save your changes. Please try again."]
              end in
            (sent, effects, mkScreen (form screen) nextErrors false, w')
        end
  | _, _ => ([], [], screen, w)
  end.

End Handlers.

End EditContactScreen.

(** * The "Contact" screen (mobile/app/contacts/[id].tsx) *)
Module ContactDetailsScreen.

(** The button pressed in the "Delete contact" alert. *)
Inductive Button : Type := Cancel | Delete.

Section Handlers.

Variable validators : Contact -> bool.

(** [requestDelete], with the button the user then presses; [contact] is
    the contact the screen shows, if any.  The result also tells whether
    the confirmation was shown. *)
Definition requestDelete (env : nat -> Client.Env)
    (contact : option Contact) (pressed : Button) (w : Client.World)
  : bool * list Client.Sent * list UiEffect * Client.World :=
  match contact with
  | None => (false, [], [], w)
  | Some contact =>
      match pressed with
      | Cancel => (true, [], [], w)
      | Delete =>
          let '(sent, w', outcome) :=
            Client.run validators (Client.deleteContact (_id contact))
              env 0 w in
          let effects :=
            match outcome with
            | Ok _ => [router_replace "/" None]
            | Err _ =>
                [Alert_alert "Delete failed"
                   "We could not remove this contact. Please try again."]
            end in
          (true, sent, effects, w')
      end
  end.

End Handlers.

End ContactDetailsScreen.

(** * The contact list screen (mobile/app/index.tsx) *)
Module ContactListScreen.

(** A section of the list: [{ title, data }]. *)
Record Section_ : Type := mkSection {
  title : jsstring;
  data : list Contact
}.

(** The order of the default [sort()]: strings by their code units. *)
Fixpoint codeUnitLt (a b : jsstring) : bool :=
  match a, b with
  | _, [] => false
  | [], _ :: _ => true
  | x :: a', y :: b' => (x <? y) || ((x =? y) && codeUnitLt a' b')
  end.

Fixpoint insertKey (key : jsstring) (keys : list jsstring) : list jsstring :=
  match keys with
  | [] => [key]
  | key' :: keys' =>
      if codeUnitLt key' key then key' :: insertKey key keys'
      else key :: keys
  end.

(** [keys.sort()] *)
Definition sort (keys : list jsstring) : list jsstring :=
  foldr insertKey [] keys.

(** [Record<string, Contact[]>], by its own keys in the order they were
    set.  [Object.keys] lists keys that look like array indices first;
    [sort()] makes the order of the keys immaterial.  A letter is one
    character in upper case or [#], never the name of a property that
    objects inherit. *)
Abbreviation SectionsMap := (list (jsstring * list Contact)) (only parsing).

Fixpoint get (key : jsstring) (m : SectionsMap) : option (list Contact) :=
  match m with
  | [] => None
  | (k, v) :: m' => if decide (k = key) then Some v else get key m'
  end.

(** [acc[key].push(item)] *)
Fixpoint push (key : jsstring) (item : Contact) (m : SectionsMap)
  : SectionsMap :=
  match m with
  | [] => []
  | (k, v) :: m' =>
      if decide (k = key) then (k, v ++ [item]) :: m'
      else (k, v) :: push key item m'
  end.

Section WithCaseMappings.

Variable toLowerCase : jsstring -> jsstring.
Variable toUpperCase : jsstring -> jsstring.

Definition filteredContacts (query : jsstring) (contacts : list Contact)
  : list Contact :=
  let normalized := toLowerCase (trim query) in
  if negb (truthy normalized) then contacts
  else
    filter
      (fun contact =>
         let haystack :=
           toLowerCase
             (join [32]
                (filter (fun field => truthy field = true)
                   [name contact; email contact; phone contact])) in
         includes haystack normalized = true)
      contacts.

(** The letter a contact is filed under: the first character of its last
    word in upper case, or [#]. *)
Definition letterOf (item : Contact) : jsstring :=
  let parts := splitSpaces (trim (name item)) in
  let lastName :=
    if (0 <? length parts)%nat then default [] (last parts)
    else default [] (head parts) in
  let letter := toUpperCase (take 1 lastName) in
  if truthy letter then letter else [35].

(** The callback of [reduce]. *)
Definition addToSection (acc : SectionsMap) (item : Contact) : SectionsMap :=
  let letter := letterOf item in
  let acc := if get letter acc is None then acc ++ [(letter, [])] else acc in
  push letter item acc.

Definition sections (filteredContacts : list Contact) : list Section_ :=
  let sectionsMap := foldl addToSection [] filteredContacts in
  map (fun key => mkSection key (default [] (get key sectionsMap)))
    (sort (map fst sectionsMap)).

End WithCaseMappings.

(** The lower-case mapping restricted to ASCII, to run examples. *)
Definition asciiLowerCase (s : jsstring) : jsstring :=
  map (fun c => if (65 <=? c) && (c <=? 90) then c + 32 else c) s.

End ContactListScreen.

(** * Sample data

    The record of the scenario in the specification and the environments
    the properties are instantiated at. *)
Module Samples.

Definition ada : Contact :=
  {| _id := str "65f1c0ffee0123456789abcd";
     name := str "Ada Lovelace";
     email := str "ada@example.com";
     phone := str "555-0100";
     createdAt := 1700000000000;
     updatedAt := 1700000000000 |}.

Definition grace : Contact :=
  {| _id := str "65f1c0ffee0123456789abce";
     name := str "Grace Hopper";
     email := str "grace@example.com";
     phone := str "555-0101";
     createdAt := 1700000000500;
     updatedAt := 1700000000500 |}.

(** A schema whose [name], [email] and [phone] are required: mongoose
    rejects the empty string for a required string path. *)
Definition required (c : Contact) : bool :=
  negb (bool_decide (name c = [])) && negb (bool_decide (email c = []))
  && negb (bool_decide (phone c = [])).

Definition adaDraft : Client.ContactDraft :=
  {| Client.draft_name := str "Ada Lovelace";
     Client.draft_email := str "ada@example.com";
     Client.draft_phone := str "555-0100" |}.

(** Every request is delivered; the clock advances with each request. *)
Definition online (n : nat) : Client.Env :=
  {| Client.net := Client.Delivered;
     Client.clock := 1700000001000 + N.of_nat n;
     Client.objectId := str "65f1c0ffee0123456789abcd" |}.

(** No request reaches the server. *)
Definition offline (n : nat) : Client.Env :=
  {| Client.net := Client.RequestLost;
     Client.clock := 1700000001000 + N.of_nat n;
     Client.objectId := str "65f1c0ffee0123456789abcd" |}.

End Samples.

(** * Properties of the resolver layer *)
Section ServerFacts.

Import Server.

Implicit Types (st : list Contact) (id : jsstring) (c : Contact).

Lemma lookupId_id id st c : lookupId id st = Some c -> _id c = id.
Proof.
  induction st as [|d rest IH]; simpl; [done|].
  case_decide; [congruence | done].
Qed.

Lemma lookupId_None id st : lookupId id st = None <-> id ∉ map _id st.
Proof.
  induction st as [|d rest IH]; simpl.
  - split; [intros _; apply not_elem_of_nil | done].
  - rewrite not_elem_of_cons. case_decide; split; try done.
    + intros [? _]; congruence.
    + intros H'. split; [congruence | by apply IH].
    + intros [_ ?]. by apply IH.
Qed.

Lemma lookupId_elem_of id st c : lookupId id st = Some c -> c ∈ st.
Proof.
  induction st as [|d rest IH]; simpl; [done|].
  case_decide.
  - intros [= ->]. left.
  - intros ?. right. by apply IH.
Qed.

Lemma applyUpdate_id u c : _id (applyUpdate u c) = _id c.
Proof. done. Qed.

(** [findByIdAndUpdate] resolves to the updated first match and rewrites
    nothing else. *)
Lemma updateFirst_result id u st :
  (updateFirst id u st).2 = applyUpdate u <$> lookupId id st.
Proof.
  induction st as [|d rest IH]; simpl; [done|].
  case_decide; [done|].
  destruct (updateFirst id u rest) as [rest' r] eqn:E. simpl in *. done.
Qed.

Lemma updateFirst_lookup id id' u st :
  lookupId id' (updateFirst id u st).1 =
  if decide (id' = id) then (updateFirst id u st).2 else lookupId id' st.
Proof.
  induction st as [|d rest IH]; simpl.
  - by case_decide.
  - destruct (decide (_id d = id)) as [Hd|Hd]; simpl.
    + rewrite Hd. destruct (decide (id = id')) as [->|Hne].
      * by rewrite decide_True.
      * rewrite decide_False; [done | congruence].
    + destruct (updateFirst id u rest) as [rest' r] eqn:E. simpl in *.
      destruct (decide (_id d = id')) as [Hd'|Hd'].
      * rewrite decide_False; [done | congruence].
      * done.
Qed.

Lemma updateFirst_ids id u st :
  map _id (updateFirst id u st).1 = map _id st.
Proof.
  induction st as [|d rest IH]; simpl; [done|].
  case_decide; simpl; [done|].
  destruct (updateFirst id u rest) as [rest' r] eqn:E. simpl in *.
  by rewrite IH.
Qed.

Lemma updateFirst_absent id u st :
  lookupId id st = None -> updateFirst id u st = (st, None).
Proof.
  induction st as [|d rest IH]; simpl; [done|].
  case_decide; [done|]. intros H'. by rewrite (IH H').
Qed.



Lemma deleteFirst_other id id' st :
  id' <> id -> lookupId id' (deleteFirst id st).1 = lookupId id' st.
Proof.
  intros Hne. induction st as [|d rest IH]; simpl; [done|].
  destruct (decide (_id d = id)) as [Hd|Hd]; simpl.
  - rewrite decide_False; [done | congruence].
  - destruct (deleteFirst id rest) as [rest' r] eqn:E. simpl in *.
    by rewrite IH.
Qed.

Lemma deleteFirst_sublist id st : (deleteFirst id st).1 ⊆ st.
Proof.
  induction st as [|d rest IH]; simpl; [done|].
  case_decide; simpl.
  - intros x ?. by right.
  - destruct (deleteFirst id rest) as [rest' r] eqn:E. simpl in *.
    intros x [->|?]%elem_of_cons; [left | right; by apply IH].
Qed.

Lemma deleteFirst_gone id st :
  unique_ids st -> lookupId id (deleteFirst id st).1 = None.
Proof.
  unfold unique_ids.
  induction st as [|d rest IH]; simpl; [done|].
  intros [Hd Hrest]%NoDup_cons.
  destruct (decide (_id d = id)) as [Heq|Hne]; simpl.
  - apply lookupId_None. congruence.
  - destruct (deleteFirst id rest) as [rest' r] eqn:E. simpl in *.
    rewrite decide_False; [by apply IH | done].
Qed.


(** The resolvers keep the identifiers of the collection unique. *)
Lemma unique_ids_nil : unique_ids [].
Proof. apply NoDup_nil_2. Qed.

Lemma unique_ids_update now id n e p st :
  unique_ids st -> unique_ids (updateContact now id n e p st).1.
Proof.
  unfold unique_ids, updateContact, bind, findByIdAndUpdate. intros Hst.
  pose proof (updateFirst_ids id (mkUpdate n e p (Some now)) st) as Hids.
  destruct (updateFirst id _ st) as [st' [c'|]]; simpl in *; by rewrite Hids.
Qed.

Lemma unique_ids_delete id st :
  unique_ids st -> unique_ids (deleteContact id st).1.
Proof.
  unfold unique_ids, deleteContact, bind, findByIdAndDelete.
  destruct (deleteFirst id st) as [st' r] eqn:E. simpl.
  assert (st' = (deleteFirst id st).1) as -> by by rewrite E.
  clear E r. induction st as [|d rest IH]; simpl; [done|].
  intros [Hd Hrest]%NoDup_cons.
  case_decide; simpl; [done|].
  pose proof (deleteFirst_sublist id rest) as Hsub.
  destruct (deleteFirst id rest) as [rest' r'] eqn:E'. simpl in *.
  apply NoDup_cons. split; [|by apply IH].
  intros (x & Hx & Hin)%list_elem_of_fmap.
  apply Hd, list_elem_of_fmap. exists x. split; [done | by apply Hsub].
Qed.

Lemma unique_ids_create validators oid now n e p st :
  unique_ids st -> unique_ids (createContact validators oid now n e p st).1.
Proof.
  unfold unique_ids, createContact, bind, save. intros Hst.
  destruct (negb _); simpl; [done|].
  destruct (lookupId oid st) as [c|] eqn:E; simpl; [done|].
  rewrite map_app. simpl. apply NoDup_app. split; [done|].
  split; [|apply NoDup_singleton].
  intros x Hx ->%list_elem_of_singleton. by apply lookupId_None in E.
Qed.

Lemma reachable_unique_ids validators st :
  reachable validators st -> unique_ids st.
Proof.
  induction 1;
    auto using unique_ids_nil, unique_ids_create, unique_ids_update,
      unique_ids_delete.
Qed.

(** On an identifier that is in the collection, [updateContact] resolves
    to the record with the update applied, which is the record stored under
    the identifier from then on. *)
Lemma updateContact_found now id n e p st c :
  let u := Server.mkUpdate n e p (Some now) in
  Server.lookupId id st = Some c ->
  Server.updateContact now id n e p st
  = ((Server.updateFirst id u st).1, Ok (Server.applyUpdate u c)) /\
  Server.lookupId id (Server.updateFirst id u st).1
  = Some (Server.applyUpdate u c).
Proof.
  intros u Hc.
  pose proof (updateFirst_result id u st) as Hres.
  pose proof (updateFirst_lookup id id u st) as Hsame.
  unfold Server.updateContact, Server.bind, Server.findByIdAndUpdate.
  fold u. destruct (Server.updateFirst id u st) as [st' r]. simpl in *.
  rewrite Hc in Hres. simpl in Hres. subst r.
  by rewrite decide_True in Hsame.
Qed.

End ServerFacts.

(** * The resolver contract *)

(** C1. For an identifier that is in the collection, [updateContact]
    leaves every omitted field of the record as it was stored, sets every
    provided field to the value given, and sets [updatedAt] to the current
    time whatever was provided; [_id] and [createdAt] stay, and so does
    every other record. *)
Theorem updateContact_partial_update
    (now : N) (id : jsstring) (n e p : option jsstring)
    (st : list Contact) (c : Contact) :
  Server.lookupId id st = Some c ->
  exists st' c',
    Server.updateContact now id n e p st = (st', Ok c') /\
    Server.lookupId id st' = Some c' /\
    (n = None -> name c' = name c) /\
    (e = None -> email c' = email c) /\
    (p = None -> phone c' = phone c) /\
    (forall x, n = Some x -> name c' = x) /\
    (forall x, e = Some x -> email c' = x) /\
    (forall x, p = Some x -> phone c' = x) /\
    updatedAt c' = now /\
    _id c' = _id c /\ createdAt c' = createdAt c /\
    (forall id', id' <> id ->
       Server.lookupId id' st' = Server.lookupId id' st) /\
    map _id st' = map _id st.
Proof.
  intros Hc.
  destruct (updateContact_found now id n e p st c Hc) as [Hrun Hget].
  pose proof (fun id' => updateFirst_lookup id id'
                (Server.mkUpdate n e p (Some now)) st) as Hother.
  eexists _, _. split; [exact Hrun|]. split; [exact Hget|]. simpl.
  repeat split; try done.
  - by intros ->.
  - by intros ->.
  - by intros ->.
  - by intros x ->.
  - by intros x ->.
  - by intros x ->.
  - intros id' Hne. rewrite Hother. by rewrite decide_False.
  - apply updateFirst_ids.
Qed.

Lemma updateContact_partial_update_witness :
  exists st' c',
    Server.updateContact 1700000002000 (_id Samples.ada)
      None None (Some (str "555-0199")) [Samples.ada; Samples.grace]
    = (st', Ok c') /\
    name c' = name Samples.ada /\ email c' = email Samples.ada /\
    phone c' = str "555-0199" /\ updatedAt c' = 1700000002000.
Proof.
  destruct (updateContact_partial_update 1700000002000 (_id Samples.ada)
              None None (Some (str "555-0199"))
              [Samples.ada; Samples.grace] Samples.ada eq_refl)
    as (st' & c' & Hrun & _ & Hn & He & _ & _ & _ & Hp & Hu & _).
  exists st', c'. split; [exact Hrun|]. split; [exact (Hn eq_refl)|].
  split; [exact (He eq_refl)|]. split; [exact (Hp _ eq_refl) | exact Hu].
Defined.





(** C4. When the schema accepts [(name, email, phone)] and the identifier
    generated for the new document is not in use, [createContact] resolves
    to the persisted record, which carries the generated identifier and
    both timestamps, and [getContact] on that identifier then resolves to
    a record with the given name, email and phone whose [createdAt] equals
    its [updatedAt]. *)
Theorem createContact_then_getContact
    (validators : Contact -> bool) (oid : jsstring) (now : N)
    (n e p : jsstring) (st : list Contact) :
  validators (Server.newContact oid now n e p) = true ->
  oid ∉ map _id st ->
  exists st' c,
    Server.createContact validators oid now n e p st = (st', Ok c) /\
    _id c = oid /\ createdAt c = now /\ updatedAt c = now /\
    exists c',
      Server.getContact (_id c) st' = (st', Ok (Some c')) /\
      name c' = n /\ email c' = e /\ phone c' = p /\
      createdAt c' = updatedAt c'.
Proof.
  intros Hvalid Hfresh%lookupId_None.
  unfold Server.createContact, Server.bind, Server.save. simpl.
  rewrite Hvalid, Hfresh. simpl.
  eexists _, _. split; [reflexivity|]. simpl. repeat split.
  exists (Server.newContact oid now n e p).
  split; [|done].
  unfold Server.getContact, Server.findById. do 2 f_equal.
  clear Hvalid. induction st as [|d rest IH]; simpl in *.
  - by rewrite decide_True.
  - case_decide; [done | by apply IH].
Qed.

Lemma createContact_then_getContact_witness :
  exists st' c,
    Server.createContact Samples.required
      (str "65f1c0ffee0123456789abcf") 1700000003000
      (str "Ada Lovelace") (str "ada@example.com") (str "555-0100")
      [Samples.grace] = (st', Ok c) /\
    _id c = str "65f1c0ffee0123456789abcf" /\
    createdAt c = 1700000003000 /\ updatedAt c = 1700000003000 /\
    exists c',
      Server.getContact (_id c) st' = (st', Ok (Some c')) /\
      name c' = str "Ada Lovelace" /\ email c' = str "ada@example.com" /\
      phone c' = str "555-0100" /\ createdAt c' = updatedAt c'.
Proof.
  apply (createContact_then_getContact Samples.required
           (str "65f1c0ffee0123456789abcf") 1700000003000
           (str "Ada Lovelace") (str "ada@example.com") (str "555-0100")
           [Samples.grace]).
  - vm_compute. reflexivity.
  - apply not_elem_of_cons. split; [discriminate | apply not_elem_of_nil].
Defined.



(** * Properties of the client data layer *)
Section ClientFacts.

Import Client.

Variable validators : Contact -> bool.

Implicit Types (env : nat -> Env) (w : World).

Lemma writeEntity_ids c l : map _id (writeEntity c l) = map _id l.
Proof.
  unfold writeEntity. induction l as [|d rest IH]; simpl; [done|].
  rewrite IH. by case_decide; f_equal.
Qed.

(** No mutation result adds an entry to the cached list or removes one. *)
Lemma writeResult_mutation_ids {X} (h : Hook X) (x : X) w :
  document h <> GET_CONTACTS ->
  map _id (default [] (writeResult h x (cached w))) = map _id (contacts w).
Proof.
  unfold contacts.
  destruct h; simpl; try done;
    destruct (cached w); simpl; by rewrite ?writeEntity_ids.
Qed.

(** A delivered list fetch replaces the cached list by the collection. *)
Lemma exchange_refetch e w :
  net e = Delivered ->
  exchange validators e refetch w
  = ({| server := server w; cached := Some (server w) |},
     Ok {| data := Some (server w) |}).
Proof. unfold exchange. by intros ->. Qed.

Lemma exchange_refetch_lost e w :
  net e <> Delivered ->
  exchange validators e refetch w = (w, Err NetworkError).
Proof. unfold exchange. destruct w, (net e); done. Qed.

(** A rejected call changes nothing in the cached list. *)
Lemma exchange_rejected {X} e (h : Hook X) w :
  rejected validators e h w ->
  exists w' ex,
    exchange validators e h w = (w', Err ex) /\ cached w' = cached w.
Proof.
  unfold rejected, exchange. intros [Hnet | (st' & ex & Hres)].
  - destruct (net e); [done | eauto |].
    destruct (resolve validators e h (server w)); eauto.
  - rewrite Hres. destruct (net e); eauto.
Qed.

(** Every mutation of the context has the same shape: await the mutation,
    await the refresh, return something computed from the response. *)
Lemma run_mutate_then_refresh {X A} (h : Hook X) (f : FetchResult X -> A)
    env w st1 x :
  net (env 0%nat) = Delivered ->
  resolve validators (env 0%nat) h (server w) = (st1, Ok x) ->
  exists w' res,
    run validators
      (r <- await call h ;; await refreshContacts ;; Return (f r)) env 0 w
    = ([document h; GET_CONTACTS], w', res) /\
    server w' = st1 /\
    (net (env 1%nat) = Delivered ->
       cached w' = Some st1 /\ res = Ok (f {| data := Some x |})) /\
    (net (env 1%nat) <> Delivered ->
       cached w' = writeResult h x (cached w) /\ res = Err NetworkError).
Proof.
  intros Hnet Hres. cbn. unfold exchange at 1. rewrite Hnet, Hres.
  destruct (decide (net (env 1%nat) = Delivered)) as [Hd|Hd].
  - rewrite exchange_refetch by done. eexists _, _. by repeat split.
  - rewrite exchange_refetch_lost by done. eexists _, _. by repeat split.
Qed.

Lemma run_rejected_mutation {X A} (h : Hook X) (f : FetchResult X -> A)
    env w :
  rejected validators (env 0%nat) h w ->
  exists w' ex,
    exchange validators (env 0%nat) h w = (w', Err ex) /\
    run validators
      (r <- await call h ;; await refreshContacts ;; Return (f r)) env 0 w
    = ([document h], w', Err ex) /\
    cached w' = cached w.
Proof.
  intros (w' & ex & Hex & Hc)%exchange_rejected. cbn. rewrite Hex. eauto.
Qed.

End ClientFacts.

Lemma createContact_appends validators oid now n e p st st1 c :
  Server.createContact validators oid now n e p st = (st1, Ok c) ->
  c = Server.newContact oid now n e p /\ st1 = st ++ [c].
Proof.
  unfold Server.createContact, Server.bind, Server.save.
  destruct (negb _); simpl; [done|].
  destruct (Server.lookupId oid st); simpl; [done|].
  by intros [= <- <-].
Qed.

(** * The contract of the client data layer *)

(** C6. When its mutation is delivered and accepted, each of [addContact],
    [updateContact] and [deleteContact] sends exactly two documents: the
    mutation first, the list query second.  When the list comes back, the
    cached list is the collection as the mutation left it; [addContact]
    then resolves to the identifier of the new contact, which is in the
    list.  When the list does not come back the operation is rejected and
    the cached list has the entries it had: nothing was inserted ahead of
    the refresh. *)
Theorem mutations_then_refresh
    (validators : Contact -> bool) (env : nat -> Client.Env)
    (w : Client.World) :
  Client.net (env 0%nat) = Client.Delivered ->
  (forall draft st1 c,
     Server.createContact validators
       (Client.objectId (env 0%nat)) (Client.clock (env 0%nat))
       (Client.draft_name draft) (Client.draft_email draft)
       (Client.draft_phone draft) (Client.server w) = (st1, Ok c) ->
     exists w' res,
       Client.run validators (Client.addContact draft) env 0 w
       = ([Client.CREATE_CONTACT (Client.draft_name draft)
             (Client.draft_email draft) (Client.draft_phone draft);
           Client.GET_CONTACTS], w', res) /\
       Client.server w' = st1 /\
       (Client.net (env 1%nat) = Client.Delivered ->
          Client.cached w' = Some st1 /\ res = Ok (Some (_id c)) /\
          c ∈ Client.contacts w') /\
       (Client.net (env 1%nat) <> Client.Delivered ->
          res = Err NetworkError /\
          map _id (Client.contacts w') = map _id (Client.contacts w))) /\
  (forall id draft st1 c,
     Server.updateContact (Client.clock (env 0%nat)) id
       (Some (Client.draft_name draft)) (Some (Client.draft_email draft))
       (Some (Client.draft_phone draft)) (Client.server w) = (st1, Ok c) ->
     exists w' res,
       Client.run validators (Client.updateContact id draft) env 0 w
       = ([Client.UPDATE_CONTACT id (Client.draft_name draft)
             (Client.draft_email draft) (Client.draft_phone draft);
           Client.GET_CONTACTS], w', res) /\
       Client.server w' = st1 /\
       (Client.net (env 1%nat) = Client.Delivered ->
          Client.cached w' = Some st1 /\ res = Ok ()) /\
       (Client.net (env 1%nat) <> Client.Delivered ->
          res = Err NetworkError /\
          map _id (Client.contacts w') = map _id (Client.contacts w))) /\
  (forall id st1 b,
     Server.deleteContact id (Client.server w) = (st1, Ok b) ->
     exists w' res,
       Client.run validators (Client.deleteContact id) env 0 w
       = ([Client.DELETE_CONTACT id; Client.GET_CONTACTS], w', res) /\
       Client.server w' = st1 /\
       (Client.net (env 1%nat) = Client.Delivered ->
          Client.cached w' = Some st1 /\ res = Ok ()) /\
       (Client.net (env 1%nat) <> Client.Delivered ->
          res = Err NetworkError /\
          map _id (Client.contacts w') = map _id (Client.contacts w))).
Proof.
  intros Hnet. repeat split.
  - intros draft st1 c Hres.
    destruct (run_mutate_then_refresh validators
                (Client.createContact
                   (Client.mkDraft (Client.draft_name draft)
                      (Client.draft_email draft) (Client.draft_phone draft)))
                (fun r => _id <$> Client.data r) env w st1 c Hnet Hres)
      as (w' & res & Hrun & Hsrv & Hok & Hlost).
    exists w', res. split; [exact Hrun|]. split; [done|]. split.
    + intros Hd. destruct (Hok Hd) as [Hc ->]. repeat split; [done|].
      unfold Client.contacts. rewrite Hc. simpl.
      apply createContact_appends in Hres as [_ ->].
      apply elem_of_app. right. left.
    + intros Hd. destruct (Hlost Hd) as [Hc ->]. split; [done|].
      unfold Client.contacts at 1. rewrite Hc.
      by apply (writeResult_mutation_ids (Client.createContact draft) c w).
  - intros id draft st1 c Hres.
    destruct (run_mutate_then_refresh validators
                (Client.updateContactMutation id
                   (Client.mkDraft (Client.draft_name draft)
                      (Client.draft_email draft) (Client.draft_phone draft)))
                (fun _ => ()) env w st1 c Hnet Hres)
      as (w' & res & Hrun & Hsrv & Hok & Hlost).
    exists w', res. split; [exact Hrun|]. split; [done|]. split; [done|].
    intros Hd. destruct (Hlost Hd) as [Hc ->]. split; [done|].
    unfold Client.contacts at 1. rewrite Hc.
    by apply (writeResult_mutation_ids
                (Client.updateContactMutation id draft) c w).
  - intros id st1 b Hres.
    destruct (run_mutate_then_refresh validators
                (Client.deleteContactMutation id)
                (fun _ => ()) env w st1 b Hnet Hres)
      as (w' & res & Hrun & Hsrv & Hok & Hlost).
    exists w', res. split; [exact Hrun|]. split; [done|]. split; [done|].
    intros Hd. destruct (Hlost Hd) as [Hc ->]. split; [done|].
    unfold Client.contacts at 1. by rewrite Hc.
Qed.

Lemma mutations_then_refresh_witness :
  exists w' res,
    Client.run Samples.required (Client.addContact Samples.adaDraft)
      Samples.online 0 (Client.mkWorld [Samples.grace] None)
    = ([Client.CREATE_CONTACT (str "Ada Lovelace") (str "ada@example.com")
          (str "555-0100"); Client.GET_CONTACTS], w', res) /\
    Client.cached w' = Some (Client.server w') /\
    res = Ok (Some (str "65f1c0ffee0123456789abcd")).
Proof.
  destruct (proj1 (mutations_then_refresh Samples.required Samples.online
                     (Client.mkWorld [Samples.grace] None) eq_refl)
              Samples.adaDraft
              [Samples.grace;
               Server.newContact (str "65f1c0ffee0123456789abcd")
                 1700000001000 (str "Ada Lovelace") (str "ada@example.com")
                 (str "555-0100")]
              (Server.newContact (str "65f1c0ffee0123456789abcd")
                 1700000001000 (str "Ada Lovelace") (str "ada@example.com")
                 (str "555-0100"))
              eq_refl)
    as (w' & res & Hrun & Hsrv & Hok & _).
  destruct (Hok eq_refl) as (Hc & Hr & _).
  exists w', res. split; [exact Hrun|]. split; [|exact Hr].
  rewrite Hc, Hsrv. reflexivity.
Defined.

(** C7. When the mutation of [addContact], [updateContact] or
    [deleteContact] is rejected (the request or its answer is lost, or the
    resolver throws), the operation is rejected with the failure of that
    call, the one document it sent is the mutation (no list query, no
    second attempt), and the cached list is what it was. *)
Theorem failed_mutation_leaves_cache
    (validators : Contact -> bool) (env : nat -> Client.Env)
    (w : Client.World) (id : jsstring) (draft : Client.ContactDraft) :
  (Client.rejected validators (env 0%nat) (Client.createContact draft) w ->
   exists w' ex,
     Client.exchange validators (env 0%nat) (Client.createContact draft) w
     = (w', Err ex) /\
     Client.run validators (Client.addContact draft) env 0 w
     = ([Client.CREATE_CONTACT (Client.draft_name draft)
           (Client.draft_email draft) (Client.draft_phone draft)],
        w', Err ex) /\
     Client.cached w' = Client.cached w) /\
  (Client.rejected validators (env 0%nat)
     (Client.updateContactMutation id draft) w ->
   exists w' ex,
     Client.exchange validators (env 0%nat)
       (Client.updateContactMutation id draft) w = (w', Err ex) /\
     Client.run validators (Client.updateContact id draft) env 0 w
     = ([Client.UPDATE_CONTACT id (Client.draft_name draft)
           (Client.draft_email draft) (Client.draft_phone draft)],
        w', Err ex) /\
     Client.cached w' = Client.cached w) /\
  (Client.rejected validators (env 0%nat)
     (Client.deleteContactMutation id) w ->
   exists w' ex,
     Client.exchange validators (env 0%nat)
       (Client.deleteContactMutation id) w = (w', Err ex) /\
     Client.run validators (Client.deleteContact id) env 0 w
     = ([Client.DELETE_CONTACT id], w', Err ex) /\
     Client.cached w' = Client.cached w).
Proof.
  destruct draft as [n e p]. repeat split; intros Hrej.
  - exact (run_rejected_mutation validators
             (Client.createContact (Client.mkDraft n e p))
             (fun r => _id <$> Client.data r) env w Hrej).
  - exact (run_rejected_mutation validators
             (Client.updateContactMutation id (Client.mkDraft n e p))
             (fun _ => ()) env w Hrej).
  - exact (run_rejected_mutation validators
             (Client.deleteContactMutation id) (fun _ => ()) env w Hrej).
Qed.

Lemma failed_mutation_leaves_cache_witness :
  (exists w' ex,
     Client.exchange Samples.required (Samples.offline 0%nat)
       (Client.createContact Samples.adaDraft)
       (Client.mkWorld [Samples.grace] (Some [])) = (w', Err ex) /\
     Client.run Samples.required (Client.addContact Samples.adaDraft)
       Samples.offline 0 (Client.mkWorld [Samples.grace] (Some []))
     = ([Client.CREATE_CONTACT (str "Ada Lovelace") (str "ada@example.com")
           (str "555-0100")], w', Err ex) /\
     Client.cached w' = Some []) /\
  (exists w' ex,
     Client.exchange Samples.required (Samples.online 0%nat)
       (Client.updateContactMutation (str "does-not-exist") Samples.adaDraft)
       (Client.mkWorld [Samples.grace] (Some [Samples.grace]))
     = (w', Err ex) /\
     Client.run Samples.required
       (Client.updateContact (str "does-not-exist") Samples.adaDraft)
       Samples.online 0
       (Client.mkWorld [Samples.grace] (Some [Samples.grace]))
     = ([Client.UPDATE_CONTACT (str "does-not-exist") (str "Ada Lovelace")
           (str "ada@example.com") (str "555-0100")], w', Err ex) /\
     Client.cached w' = Some [Samples.grace]).
Proof.
  split.
  - apply (proj1 (failed_mutation_leaves_cache Samples.required
                    Samples.offline
                    (Client.mkWorld [Samples.grace] (Some []))
                    [] Samples.adaDraft)).
    left. discriminate.
  - apply (proj1 (proj2 (failed_mutation_leaves_cache Samples.required
                           Samples.online
                           (Client.mkWorld [Samples.grace]
                              (Some [Samples.grace]))
                           (str "does-not-exist") Samples.adaDraft))).
    right. exists [Samples.grace], (Error "Contact not found").
    vm_compute. reflexivity.
Defined.

(** C8. Two calls of [refreshContacts] whose list queries are delivered,
    with no request in between, leave the same cached list: the collection.
    The first call sets it, the second sets it again to the same list, and
    would do so whatever list was cached before it. *)
Theorem refreshContacts_idempotent
    (validators : Contact -> bool) (env : nat -> Client.Env) (n : nat)
    (w : Client.World) :
  Client.net (env n) = Client.Delivered ->
  Client.net (env (S n)) = Client.Delivered ->
  exists w1 w2,
    Client.run validators Client.refreshContacts env n w
    = ([Client.GET_CONTACTS], w1, Ok ()) /\
    Client.run validators Client.refreshContacts env (S n) w1
    = ([Client.GET_CONTACTS], w2, Ok ()) /\
    Client.cached w1 = Some (Client.server w) /\
    Client.cached w2 = Client.cached w1 /\
    Client.contacts w2 = Client.contacts w1 /\
    Client.server w2 = Client.server w /\
    forall stale,
      Client.run validators Client.refreshContacts env (S n)
        (Client.mkWorld (Client.server w1) stale)
      = ([Client.GET_CONTACTS], w2, Ok ()).
Proof.
  intros H1 H2. unfold Client.refreshContacts. cbn.
  rewrite (exchange_refetch validators _ w H1).
  eexists _, _. split; [reflexivity|].
  rewrite exchange_refetch by done. simpl.
  split; [reflexivity|]. repeat split.
  intros stale. by rewrite exchange_refetch.
Qed.

Lemma refreshContacts_idempotent_witness :
  exists w1 w2,
    Client.run Samples.required Client.refreshContacts Samples.online 0
      (Client.mkWorld [Samples.ada; Samples.grace] None)
    = ([Client.GET_CONTACTS], w1, Ok ()) /\
    Client.run Samples.required Client.refreshContacts Samples.online 1 w1
    = ([Client.GET_CONTACTS], w2, Ok ()) /\
    Client.cached w1 = Some [Samples.ada; Samples.grace] /\
    Client.cached w2 = Client.cached w1.
Proof.
  destruct (refreshContacts_idempotent Samples.required Samples.online 0
              (Client.mkWorld [Samples.ada; Samples.grace] None)
              eq_refl eq_refl)
    as (w1 & w2 & Hr1 & Hr2 & Hc1 & Hc2 & _).
  exists w1, w2. split; [exact Hr1|]. split; [exact Hr2|].
  split; [exact Hc1 | exact Hc2].
Defined.

(** * Properties of [trim] *)
Section TrimFacts.

Implicit Types (s : jsstring) (c : N).

Lemma trimStart_spaces s :
  Forall (fun c => isWhiteSpace c = true) s -> trimStart s = [].
Proof.
  induction 1 as [|c s Hc _ IH]; simpl; [done|]. by rewrite Hc.
Qed.

Lemma trimStart_prefix ws c rest :
  Forall (fun c => isWhiteSpace c = true) ws ->
  isWhiteSpace c = false ->
  trimStart (ws ++ c :: rest) = c :: rest.
Proof.
  intros Hws Hc. induction Hws as [|d ws Hd _ IH]; simpl.
  - by rewrite Hc.
  - by rewrite Hd.
Qed.

(** A string that ends in a character that is not white space keeps it. *)
Lemma trimStart_snoc s c :
  isWhiteSpace c = false -> exists s', trimStart (s ++ [c]) = s' ++ [c].
Proof.
  intros Hc. induction s as [|d s IH]; simpl.
  - rewrite Hc. by exists [].
  - destruct (isWhiteSpace d); [done|]. by exists (d :: s).
Qed.

Lemma trimStart_empty_iff s :
  trimStart s = [] <-> Forall (fun c => isWhiteSpace c = true) s.
Proof.
  split; [|apply trimStart_spaces].
  induction s as [|c s IH]; simpl; [by constructor|].
  destruct (isWhiteSpace c) eqn:Hc; [|done].
  intros H. constructor; [done | by apply IH].
Qed.

Lemma trim_spaces s :
  Forall (fun c => isWhiteSpace c = true) s -> trim s = [].
Proof. intros H. unfold trim, trimEnd. by rewrite (trimStart_spaces s H). Qed.

(** The first character of [trim s] is the first character of [s] that is
    not white space. *)
Lemma trim_head ws c rest :
  Forall (fun c => isWhiteSpace c = true) ws ->
  isWhiteSpace c = false ->
  head (trim (ws ++ c :: rest)) = Some c.
Proof.
  intros Hws Hc. unfold trim, trimEnd.
  rewrite (trimStart_prefix ws c rest Hws Hc). simpl.
  destruct (trimStart_snoc (rev rest) c Hc) as [s' ->].
  by rewrite rev_app_distr.
Qed.

(** Either every character is white space, or there is a first one that
    is not. *)
Lemma first_nonspace s :
  Forall (fun c => isWhiteSpace c = true) s \/
  exists ws c rest,
    s = ws ++ c :: rest /\
    Forall (fun c => isWhiteSpace c = true) ws /\ isWhiteSpace c = false.
Proof.
  induction s as [|d s [IH | (ws & c & rest & -> & Hws & Hc)]].
  - left. constructor.
  - destruct (isWhiteSpace d) eqn:Hd.
    + left. by constructor.
    + right. exists [], d, s. by repeat split.
  - destruct (isWhiteSpace d) eqn:Hd.
    + right. exists (d :: ws), c, rest. repeat split; [|done]. by constructor.
    + right. exists [], d, (ws ++ c :: rest). by repeat split.
Qed.

End TrimFacts.

(** * The avatar palette *)

Lemma palette_index (i : N) :
  i < 8 -> exists colors, Avatar.palette !! N.to_nat i = Some colors.
Proof.
  intros Hi. apply lookup_lt_is_Some. simpl. lia.
Qed.

(** C9. [getAvatarPalette] is total, whatever the case mapping: it returns
    an entry of the palette of eight, never [undefined].  For a name with
    only white space (the empty name too) it is the first entry; otherwise
    it is the entry at the index (first code unit of the upper-cased first
    character that is not white space) modulo 8, an index within range. *)
Theorem getAvatarPalette_total
    (toUpperCase : jsstring -> jsstring) (name : jsstring) :
  length Avatar.palette = 8%nat /\
  (exists colors,
     Avatar.getAvatarPalette toUpperCase name = Some colors /\
     colors ∈ Avatar.palette) /\
  (Forall (fun c => isWhiteSpace c = true) name ->
     trim name = [] /\
     Avatar.getAvatarPalette toUpperCase name = Avatar.palette !! 0%nat) /\
  (forall ws c rest u us,
     name = ws ++ c :: rest ->
     Forall (fun c => isWhiteSpace c = true) ws ->
     isWhiteSpace c = false ->
     toUpperCase [c] = u :: us ->
     (N.to_nat (u mod 8) < length Avatar.palette)%nat /\
     Avatar.getAvatarPalette toUpperCase name
     = Avatar.palette !! N.to_nat (u mod 8)).
Proof.
  assert (forall ws c rest u us,
     name = ws ++ c :: rest ->
     Forall (fun c => isWhiteSpace c = true) ws ->
     isWhiteSpace c = false ->
     toUpperCase [c] = u :: us ->
     (N.to_nat (u mod 8) < length Avatar.palette)%nat /\
     Avatar.getAvatarPalette toUpperCase name
     = Avatar.palette !! N.to_nat (u mod 8)) as Hindexed.
  { intros ws c rest u us -> Hws Hc Hup.
    assert (u mod 8 < 8) as Hlt by (apply N.mod_lt; lia).
    split; [simpl; lia|].
    unfold Avatar.getAvatarPalette. rewrite (trim_head ws c rest Hws Hc).
    rewrite Hup. simpl charCodeAt0. cbn [length Avatar.palette Nat.eqb negb].
    cbn [remainder N.of_nat]. unfold Avatar.at_index at 1.
    change (N.of_nat 8) with 8.
    destruct (palette_index (u mod 8) Hlt) as [colors Hcol].
    by rewrite Hcol. }
  assert (Forall (fun c => isWhiteSpace c = true) name ->
     trim name = [] /\
     Avatar.getAvatarPalette toUpperCase name = Avatar.palette !! 0%nat)
    as Hblank.
  { intros Hws. split; [by apply trim_spaces|].
    unfold Avatar.getAvatarPalette. by rewrite (trim_spaces name Hws). }
  split; [done|]. split; [|by split].
  destruct (first_nonspace name) as [Hws | (ws & c & rest & Hname & Hws & Hc)].
  - destruct (Hblank Hws) as [_ ->]. eexists. split; [reflexivity|]. left.
  - destruct (toUpperCase [c]) as [|u us] eqn:Hup.
    + unfold Avatar.getAvatarPalette. rewrite Hname.
      rewrite (trim_head ws c rest Hws Hc), Hup.
      eexists. split; [reflexivity|]. left.
    + destruct (Hindexed ws c rest u us Hname Hws Hc Hup) as [Hlt ->].
      apply lookup_lt_is_Some in Hlt as [colors Hcol].
      exists colors. split; [done|]. by eapply list_elem_of_lookup_2.
Qed.

Lemma getAvatarPalette_total_witness :
  Avatar.getAvatarPalette Avatar.asciiUpperCase (str "   ")
  = Some (Avatar.mkColors "#E0E7FF" "#3730A3") /\
  Avatar.getAvatarPalette Avatar.asciiUpperCase (str "  ada lovelace")
  = Some (Avatar.mkColors "#FEF3C7" "#B45309").
Proof.
  split.
  - apply (proj2 (proj1 (proj2 (proj2 (getAvatarPalette_total
                                         Avatar.asciiUpperCase (str "   "))))
                    ltac:(repeat constructor))).
  - apply (proj2 (proj2 (proj2 (proj2 (getAvatarPalette_total
                                         Avatar.asciiUpperCase
                                         (str "  ada lovelace"))))
                    (str "  ") 97 (str "da lovelace") 65 []
                    eq_refl ltac:(repeat constructor) eq_refl eq_refl)).
Defined.

(** * The e-mail pattern and [validate] *)
Section RegexFacts.

Import NewContactScreen.

Implicit Types (s : jsstring) (a : atom) (r : list item).

(** [a+] then [k]: some non-empty run of accepted characters, then a rest
    that [k] accepts. *)
Lemma matchPlus_spec a (k : jsstring -> bool) s :
  matchPlus a k s = true <->
  exists cs rest,
    s = cs ++ rest /\ cs <> [] /\
    Forall (fun c => accepts a c = true) cs /\ k rest = true.
Proof.
  induction s as [|c s IH]; simpl.
  - split; [done|]. intros (cs & rest & Hs & Hne & _).
    symmetry in Hs. apply app_eq_nil in Hs as [-> _]. done.
  - rewrite andb_true_iff, orb_true_iff, IH. split.
    + intros [Hc [(cs & rest & -> & Hne & Hcs & Hk) | Hk]].
      * exists (c :: cs), rest. repeat split; [done | by constructor | done].
      * exists [c], s. repeat split; [done | by repeat constructor | done].
    + intros (cs & rest & Hs & Hne & Hcs & Hk).
      destruct cs as [|c' cs]; [done|]. simpl in Hs.
      injection Hs as -> ->. apply Forall_cons in Hcs as [Hc Hcs].
      split; [done|]. destruct cs as [|c'' cs]; [by right|].
      left. exists (c'' :: cs), rest. by repeat split.
Qed.

(** [test] decides the language of the pattern. *)
Lemma test_matches r s : test r s = true <-> matches r s.
Proof.
  revert s. induction r as [|[a|a] r IH]; intros s; simpl.
  - rewrite bool_decide_eq_true. split.
    + intros ->. constructor.
    + by inversion 1.
  - destruct s as [|c s].
    + split; [done | inversion 1].
    + rewrite andb_true_iff, IH. split.
      * intros [? ?]. by constructor.
      * by inversion 1.
  - rewrite matchPlus_spec. split.
    + intros (cs & rest & -> & Hne & Hcs & Hk). constructor; [done..|].
      by apply IH.
    + inversion 1 as [| |a' cs r' rest Hne Hcs Hm]; subst.
      exists cs, rest. repeat split; [done..|]. by apply IH.
Qed.

(** [/^\S+@\S+\.\S+$/] matches the strings [local @ domain . top] made of
    three non-empty pieces without white space. *)
Lemma emailPattern_matches s :
  test emailPattern s = true <->
  exists local domain top,
    s = local ++ [64] ++ domain ++ [46] ++ top /\
    local <> [] /\ domain <> [] /\ top <> [] /\
    Forall (fun c => isWhiteSpace c = false) (local ++ domain ++ top).
Proof.
  rewrite test_matches. unfold emailPattern. split.
  - inversion 1 as [| |? local ? s1 Hl Hlocal H1]; subst.
    inversion H1 as [|? ? ? s2 Hat H2|]; subst.
    inversion H2 as [| |? domain ? s3 Hd Hdomain H3]; subst.
    inversion H3 as [|? ? ? s4 Hdot H4|]; subst.
    inversion H4 as [| |? top ? s5 Ht Htop H5]; subst.
    inversion H5; subst.
    simpl in Hat, Hdot. apply N.eqb_eq in Hat as ->.
    apply N.eqb_eq in Hdot as ->.
    exists local, domain, top. rewrite app_nil_r.
    repeat split; [done..|].
    rewrite !Forall_app. repeat split;
      (eapply Forall_impl; [eassumption|]);
      simpl; intros c Hc; by apply negb_true_iff.
  - intros (local & domain & top & -> & Hl & Hd & Ht & Hall).
    rewrite !Forall_app in Hall. destruct Hall as (Hlocal & Hdomain & Htop).
    assert (forall l, Forall (fun c => isWhiteSpace c = false) l ->
                      Forall (fun c => accepts NonSpace c = true) l) as Hns.
    { intros l Hfl. eapply Forall_impl; [exact Hfl|].
      simpl. intros c Hc. by apply negb_true_iff. }
    constructor; [done | by apply Hns |]. simpl.
    constructor; [done|].
    constructor; [done | by apply Hns |]. simpl.
    constructor; [done|].
    rewrite <- (app_nil_r top).
    constructor; [done | by apply Hns | constructor].
Qed.

End RegexFacts.

(** C10. [validate] returns [null] exactly when the trimmed name is empty,
    or the trimmed phone is empty, or the trimmed e-mail is non-empty and
    is not matched by [/^\S+@\S+\.\S+$/]; otherwise it returns the payload
    with the trimmed name, e-mail and phone and sets no error.  An e-mail
    that is empty once trimmed is accepted. *)
Theorem validate_rejects_iff (form : NewContactScreen.FormState) :
  let trimmedName := trim (NewContactScreen.form_name form) in
  let trimmedEmail := trim (NewContactScreen.form_email form) in
  let trimmedPhone := trim (NewContactScreen.form_phone form) in
  let payload := Client.mkDraft trimmedName trimmedEmail trimmedPhone in
  ((NewContactScreen.validate form).2 = None <->
     trimmedName = [] \/ trimmedPhone = [] \/
     (trimmedEmail <> [] /\
      ~ NewContactScreen.matches NewContactScreen.emailPattern trimmedEmail))
  /\
  ((NewContactScreen.validate form).2 <> None ->
     NewContactScreen.validate form = ([], Some payload)) /\
  (trimmedEmail = [] -> trimmedName <> [] -> trimmedPhone <> [] ->
     NewContactScreen.validate form = ([], Some payload)).
Proof.
  intros n e p payload.
  unfold NewContactScreen.validate, NewContactScreen.falsy.
  fold n e p. rewrite <- (test_matches NewContactScreen.emailPattern e).
  destruct (decide (n = [])) as [Hn|Hn];
    destruct (decide (e = [])) as [He|He];
    destruct (decide (p = [])) as [Hp|Hp];
    destruct (NewContactScreen.test NewContactScreen.emailPattern e) eqn:Ht;
    rewrite ?(bool_decide_eq_true_2 _ Hn), ?(bool_decide_eq_false_2 _ Hn),
      ?(bool_decide_eq_true_2 _ He), ?(bool_decide_eq_false_2 _ He),
      ?(bool_decide_eq_true_2 _ Hp), ?(bool_decide_eq_false_2 _ Hp);
    simpl; (repeat split; try done; try tauto; try (intros ?; tauto));
    try (intros [?|[?|[? ?]]]; done);
    try (intros _; right; right; split; [done | discriminate]).
Qed.

Lemma validate_rejects_iff_witness :
  NewContactScreen.validate
    (NewContactScreen.mkForm (str " Ada Lovelace ") (str "  ")
       (str "555-0100 "))
  = ([], Some (Client.mkDraft (str "Ada Lovelace") [] (str "555-0100"))).
Proof.
  apply (proj2 (proj2 (validate_rejects_iff
                         (NewContactScreen.mkForm (str " Ada Lovelace ")
                            (str "  ") (str "555-0100 "))))
           eq_refl); discriminate.
Defined.

(** * Further properties of the resolvers *)
Section MoreServerFacts.

Import Server.

Implicit Types (st : list Contact) (id : jsstring) (c : Contact).

Lemma updateFirst_createdAt id u st :
  map createdAt (updateFirst id u st).1 = map createdAt st.
Proof.
  induction st as [|d rest IH]; simpl; [done|].
  case_decide; simpl; [done|].
  destruct (updateFirst id u rest) as [rest' r]. simpl in *. by rewrite IH.
Qed.

(** The store an [updateContact] leaves, whatever it resolves to. *)
Lemma updateContact_store now id n e p st :
  (updateContact now id n e p st).1
  = (updateFirst id (mkUpdate n e p (Some now)) st).1.
Proof.
  unfold updateContact, bind, findByIdAndUpdate.
  destruct (updateFirst id _ st) as [st' [c|]]; done.
Qed.

Lemma applyUpdate_twice u1 u2 c :
  applyUpdate u2 (applyUpdate u1 c) = applyUpdate (thenUpdate u1 u2) c.
Proof.
  destruct u1 as [[?|] [?|] [?|] [?|]], u2 as [[?|] [?|] [?|] [?|]]; done.
Qed.

Lemma updateFirst_twice id u1 u2 st :
  updateFirst id u2 (updateFirst id u1 st).1
  = updateFirst id (thenUpdate u1 u2) st.
Proof.
  induction st as [|d rest IH]; simpl; [done|].
  destruct (decide (_id d = id)) as [Hd|Hd]; simpl.
  - rewrite decide_True by done. by rewrite applyUpdate_twice.
  - destruct (updateFirst id u1 rest) as [rest1 r1]. simpl in *.
    rewrite decide_False by done. by rewrite IH.
Qed.

Lemma deleteFirst_is_sublist id st : sublist (deleteFirst id st).1 st.
Proof.
  induction st as [|d rest IH]; simpl; [done|].
  case_decide; simpl.
  - by apply sublist_cons.
  - destruct (deleteFirst id rest) as [rest' r]. simpl in *.
    by apply sublist_skip.
Qed.

Lemma deleteContact_store id st :
  (deleteContact id st).1 = (deleteFirst id st).1.
Proof.
  unfold deleteContact, bind, findByIdAndDelete.
  by destruct (deleteFirst id st).
Qed.

End MoreServerFacts.

(** X1. [updateContact] never adds, removes or reorders records and never
    changes a [createdAt]: whether it finds the record or throws, the
    collection keeps its identifiers and creation times, in order. *)
Theorem updateContact_keeps_records
    (now : N) (id : jsstring) (n e p : option jsstring) (st : list Contact) :
  map _id (Server.updateContact now id n e p st).1 = map _id st /\
  map createdAt (Server.updateContact now id n e p st).1 = map createdAt st /\
  length (Server.updateContact now id n e p st).1 = length st.
Proof.
  rewrite updateContact_store.
  pose proof (updateFirst_ids id (Server.mkUpdate n e p (Some now)) st) as Hi.
  split; [done|]. split; [apply updateFirst_createdAt|].
  by rewrite <- (length_map _id), Hi, length_map.
Qed.

(** X2. Two calls of [updateContact] on the same identifier amount to one:
    the second one run on the collection the first one left gives the
    collection and the result of a single update that carries the time of
    the second and, for each field, the value of the second call when it
    provides one and that of the first otherwise. *)
Theorem updateContact_twice
    (now1 now2 : N) (id : jsstring) (n1 e1 p1 n2 e2 p2 : option jsstring)
    (st : list Contact) :
  Server.updateContact now2 id n2 e2 p2
    (Server.updateContact now1 id n1 e1 p1 st).1
  = Server.updateContact now2 id (n2 ∪ n1) (e2 ∪ e1) (p2 ∪ p1) st.
Proof.
  rewrite updateContact_store.
  unfold Server.updateContact at 1 2, Server.bind, Server.findByIdAndUpdate.
  rewrite updateFirst_twice. unfold Server.thenUpdate. simpl. done.
Qed.



(** X4. [deleteContact] only removes: the collection it leaves is the old
    one with records taken out and the rest in their order, and unique
    identifiers stay unique. *)
Theorem deleteContact_only_removes (id : jsstring) (st : list Contact) :
  sublist (Server.deleteContact id st).1 st /\
  (Server.unique_ids st -> Server.unique_ids (Server.deleteContact id st).1).
Proof.
  split; [|apply unique_ids_delete].
  rewrite deleteContact_store. apply deleteFirst_is_sublist.
Qed.

Lemma deleteContact_only_removes_witness :
  Server.unique_ids
    (Server.deleteContact (_id Samples.ada) [Samples.ada; Samples.grace]).1.
Proof.
  apply (proj2 (deleteContact_only_removes (_id Samples.ada)
                  [Samples.ada; Samples.grace])).
  unfold Server.unique_ids. simpl. apply NoDup_cons.
  split; [|apply NoDup_singleton].
  apply not_elem_of_cons. split; [discriminate | apply not_elem_of_nil].
Defined.

Lemma lookupId_unique st c :
  Server.unique_ids st -> c ∈ st -> Server.lookupId (_id c) st = Some c.
Proof.
  unfold Server.unique_ids.
  induction st as [|d rest IH]; simpl; [by intros _ ?%elem_of_nil|].
  intros [Hd Hrest]%NoDup_cons [->|Hin]%elem_of_cons.
  - by rewrite decide_True.
  - rewrite decide_False; [by apply IH|].
    intros Heq. apply Hd. rewrite Heq. by apply list_elem_of_fmap_2.
Qed.

(** X5. In every collection the resolvers can build from the empty one,
    each record is the one [getContact] resolves to for its identifier: no
    record is hidden behind another with the same identifier. *)
Theorem every_record_is_found
    (validators : Contact -> bool) (st : list Contact) (c : Contact) :
  Server.reachable validators st ->
  c ∈ st ->
  Server.getContact (_id c) st = (st, Ok (Some c)).
Proof.
  intros Hreach%reachable_unique_ids Hin.
  unfold Server.getContact, Server.findById.
  by rewrite (lookupId_unique st c Hreach Hin).
Qed.

Lemma every_record_is_found_witness :
  let st :=
    (Server.createContact Samples.required (_id Samples.grace)
       1700000000500 (str "Grace Hopper") (str "grace@example.com")
       (str "555-0101")
       (Server.createContact Samples.required (_id Samples.ada)
          1700000000000 (str "Ada Lovelace") (str "ada@example.com")
          (str "555-0100") []).1).1 in
  Server.getContact (_id Samples.grace) st = (st, Ok (Some Samples.grace)).
Proof.
  intros st.
  apply (every_record_is_found Samples.required st Samples.grace).
  - do 2 apply Server.reach_create. apply Server.reach_empty.
  - vm_compute. right. left.
Defined.

(** * Further properties of the client data layer *)
Section MoreClientFacts.

Import Client.

Variable validators : Contact -> bool.

Implicit Types (env : nat -> Env) (w : World).

(** [getContactById] reads the cached list the way [findById] reads the
    collection. *)
Lemma getContactById_lookupId w id :
  getContactById w id = Server.lookupId id (contacts w).
Proof.
  unfold getContactById. induction (contacts w) as [|d rest IH]; [done|].
  cbn [list_find Server.lookupId]. case_decide; [done|].
  rewrite <- IH. by destruct (list_find _ rest) as [[? ?]|].
Qed.

Lemma lookupId_snoc id st c :
  Server.lookupId id st = None -> _id c = id ->
  Server.lookupId id (st ++ [c]) = Some c.
Proof.
  intros Hnone Hid. induction st as [|d rest IH]; simpl in *.
  - by rewrite decide_True.
  - case_decide; [done | by apply IH].
Qed.

Lemma createContact_fresh oid now n e p st st1 c :
  Server.createContact validators oid now n e p st = (st1, Ok c) ->
  Server.lookupId oid st = None.
Proof.
  unfold Server.createContact, Server.bind, Server.save.
  destruct (negb _); simpl; [done|].
  by destruct (Server.lookupId oid st).
Qed.

Lemma updateContact_ok now id n e p st st1 c :
  Server.updateContact now id n e p st = (st1, Ok c) ->
  exists c0,
    Server.lookupId id st = Some c0 /\
    c = Server.applyUpdate (Server.mkUpdate n e p (Some now)) c0 /\
    Server.lookupId id st1 = Some c.
Proof.
  intros Hrun. destruct (Server.lookupId id st) as [c0|] eqn:Hc.
  - destruct (updateContact_found now id n e p st c0 Hc) as [Hrun' Hget].
    rewrite Hrun' in Hrun. injection Hrun as <- <-. eauto.
  - unfold Server.updateContact, Server.bind, Server.findByIdAndUpdate
      in Hrun.
    by rewrite (updateFirst_absent _ _ _ Hc) in Hrun.
Qed.

(** An operation of the shape mutate, refresh, return is fulfilled only
    when both of its calls were. *)
Lemma run_mutate_then_refresh_ok {X A} (h : Hook X) (f : FetchResult X -> A)
    env w sent w' a :
  run validators
    (r <- await call h ;; await refreshContacts ;; Return (f r)) env 0 w
  = (sent, w', Ok a) ->
  exists st1 x,
    net (env 0%nat) = Delivered /\ net (env 1%nat) = Delivered /\
    resolve validators (env 0%nat) h (server w) = (st1, Ok x) /\
    sent = [document h; GET_CONTACTS] /\
    w' = {| server := st1; cached := Some st1 |} /\
    a = f {| data := Some x |}.
Proof.
  cbn. unfold exchange at 1.
  destruct (net (env 0%nat)) eqn:Hn0; [|done|].
  - destruct (resolve validators (env 0%nat) h (server w)) as [st1 [x|ex]]
      eqn:Hres; [|done].
    unfold exchange. destruct (net (env 1%nat)) eqn:Hn1; simpl; [|done..].
    intros [= <- <- <-]. by exists st1, x.
  - by destruct (resolve validators (env 0%nat) h (server w)).
Qed.

(** Whatever happens, such an operation sends its mutation first and at
    most the list query after it. *)
Lemma run_mutate_then_refresh_sent {X A} (h : Hook X)
    (f : FetchResult X -> A) env w :
  (run validators
     (r <- await call h ;; await refreshContacts ;; Return (f r)) env 0 w).1.1
  = [document h] \/
  (run validators
     (r <- await call h ;; await refreshContacts ;; Return (f r)) env 0 w).1.1
  = [document h; GET_CONTACTS].
Proof.
  cbn. destruct (exchange validators (env 0%nat) h w) as [w1 [r|ex]];
    [|by left].
  destruct (exchange validators (env 1%nat) refetch w1) as [w2 [r'|ex]];
    by right.
Qed.

End MoreClientFacts.

(** X6. [getContactById] resolves to the first contact of the cached list
    with the identifier asked for: a contact it returns is in the list and
    has that identifier, and it returns [undefined] exactly when no cached
    contact has it, in particular before any list was fetched. *)
Theorem getContactById_finds_cached (w : Client.World) (id : jsstring) :
  (forall c, Client.getContactById w id = Some c ->
     c ∈ Client.contacts w /\ _id c = id) /\
  (Client.getContactById w id = None <-> id ∉ map _id (Client.contacts w)) /\
  (Client.cached w = None -> Client.getContactById w id = None).
Proof.
  rewrite getContactById_lookupId. repeat split.
  - by eapply lookupId_elem_of.
  - by eapply lookupId_id.
  - by intros ?%lookupId_None.
  - by intros ?%lookupId_None.
  - unfold Client.contacts. by intros ->.
Qed.

Lemma getContactById_finds_cached_witness :
  Samples.grace
    ∈ Client.contacts (Client.mkWorld [] (Some [Samples.ada; Samples.grace]))
  /\ Client.getContactById (Client.mkWorld [Samples.ada] None)
       (_id Samples.ada) = None.
Proof.
  split.
  - apply (proj1 (getContactById_finds_cached
                    (Client.mkWorld [] (Some [Samples.ada; Samples.grace]))
                    (_id Samples.grace)) Samples.grace).
    vm_compute. reflexivity.
  - apply (proj2 (proj2 (getContactById_finds_cached
                           (Client.mkWorld [Samples.ada] None)
                           (_id Samples.ada)))).
    reflexivity.
Defined.

(** After a list query was answered, the cached list is the collection. *)
Lemma getContactById_refreshed (w : Client.World) (id : jsstring) :
  Client.cached w = Some (Client.server w) ->
  Client.getContactById w id = Server.lookupId id (Client.server w).
Proof.
  intros Hc. rewrite getContactById_lookupId. unfold Client.contacts.
  by rewrite Hc.
Qed.

(** What a fulfilled [addContact] leaves behind. *)
Lemma run_addContact_found validators env w w' draft sent id :
  Client.run validators (Client.addContact draft) env 0 w
  = (sent, w', Ok (Some id)) ->
  sent = [Client.CREATE_CONTACT (Client.draft_name draft)
            (Client.draft_email draft) (Client.draft_phone draft);
          Client.GET_CONTACTS] /\
  Client.cached w' = Some (Client.server w') /\
  exists c,
    Server.lookupId id (Client.server w') = Some c /\
    name c = Client.draft_name draft /\
    email c = Client.draft_email draft /\
    phone c = Client.draft_phone draft.
Proof.
  intros Hrun.
  apply run_mutate_then_refresh_ok in Hrun
    as (st1 & c & _ & _ & Hres & -> & -> & [= ->]).
  do 2 (split; [done|]). simpl in Hres.
  pose proof (createContact_fresh _ _ _ _ _ _ _ _ _ Hres) as Hfresh.
  apply createContact_appends in Hres as [Hc ->].
  assert (_id c = Client.objectId (env 0%nat)) as Hid by by rewrite Hc.
  exists c. simpl. rewrite Hid, (lookupId_snoc _ _ c Hfresh Hid).
  repeat split; by rewrite Hc.
Qed.

(** X7. When [addContact] resolves to an identifier, [getContactById]
    finds a contact under it right away: the contact the server stores
    under that identifier, with the name, e-mail and phone of the draft. *)
Theorem addContact_then_getContactById
    (validators : Contact -> bool) (env : nat -> Client.Env)
    (w w' : Client.World) (draft : Client.ContactDraft)
    (sent : list Client.Sent) (id : jsstring) :
  Client.run validators (Client.addContact draft) env 0 w
  = (sent, w', Ok (Some id)) ->
  exists c,
    Client.getContactById w' id = Some c /\
    Server.getContact id (Client.server w')
    = (Client.server w', Ok (Some c)) /\
    name c = Client.draft_name draft /\
    email c = Client.draft_email draft /\
    phone c = Client.draft_phone draft.
Proof.
  intros Hrun.
  apply run_addContact_found in Hrun
    as (_ & Hcached & c & Hfound & Hname & Hemail & Hphone).
  exists c. rewrite (getContactById_refreshed w' id Hcached).
  unfold Server.getContact, Server.findById. rewrite Hfound.
  by repeat split.
Qed.

Lemma addContact_then_getContactById_witness :
  exists c,
    Client.getContactById
      (Client.run Samples.required (Client.addContact Samples.adaDraft)
         Samples.online 0 (Client.mkWorld [Samples.grace] None)).1.2
      (_id Samples.ada) = Some c /\
    name c = str "Ada Lovelace".
Proof.
  destruct (addContact_then_getContactById Samples.required Samples.online
              (Client.mkWorld [Samples.grace] None)
              (Client.run Samples.required
                 (Client.addContact Samples.adaDraft)
                 Samples.online 0 (Client.mkWorld [Samples.grace] None)).1.2
              Samples.adaDraft
              [Client.CREATE_CONTACT (str "Ada Lovelace")
                 (str "ada@example.com") (str "555-0100");
               Client.GET_CONTACTS]
              (_id Samples.ada) ltac:(vm_compute; reflexivity))
    as (c & Hget & _ & Hname & _).
  exists c. split; [exact Hget | exact Hname].
Defined.

(** What a fulfilled [updateContact] of the context leaves behind. *)
Lemma run_updateContact_found validators env w w' id draft sent :
  Client.run validators (Client.updateContact id draft) env 0 w
  = (sent, w', Ok ()) ->
  sent = [Client.UPDATE_CONTACT id (Client.draft_name draft)
            (Client.draft_email draft) (Client.draft_phone draft);
          Client.GET_CONTACTS] /\
  Client.cached w' = Some (Client.server w') /\
  exists c,
    Server.lookupId id (Client.server w') = Some c /\
    name c = Client.draft_name draft /\
    email c = Client.draft_email draft /\
    phone c = Client.draft_phone draft /\
    updatedAt c = Client.clock (env 0%nat).
Proof.
  intros Hrun.
  apply (run_mutate_then_refresh_ok validators
           (Client.updateContactMutation id
              (Client.mkDraft (Client.draft_name draft)
                 (Client.draft_email draft) (Client.draft_phone draft)))
           (fun _ => ())) in Hrun
    as (st1 & c & _ & _ & Hres & -> & -> & _).
  do 2 (split; [done|]).
  simpl in Hres. apply updateContact_ok in Hres as (c0 & _ & -> & Hget).
  eexists. split; [exact Hget|]. by repeat split.
Qed.

(** X8. When [updateContact] of the context is fulfilled, [getContactById]
    on the identifier finds the contact as the server stores it: with the
    name, e-mail and phone of the draft, all three overwritten, and
    [updatedAt] set to the server's clock at the mutation. *)
Theorem updateContact_then_getContactById
    (validators : Contact -> bool) (env : nat -> Client.Env)
    (w w' : Client.World) (id : jsstring) (draft : Client.ContactDraft)
    (sent : list Client.Sent) :
  Client.run validators (Client.updateContact id draft) env 0 w
  = (sent, w', Ok ()) ->
  exists c,
    Client.getContactById w' id = Some c /\
    Server.getContact id (Client.server w')
    = (Client.server w', Ok (Some c)) /\
    name c = Client.draft_name draft /\
    email c = Client.draft_email draft /\
    phone c = Client.draft_phone draft /\
    updatedAt c = Client.clock (env 0%nat).
Proof.
  intros Hrun.
  apply run_updateContact_found in Hrun
    as (_ & Hcached & c & Hfound & Hname & Hemail & Hphone & Htime).
  exists c. rewrite (getContactById_refreshed w' id Hcached).
  unfold Server.getContact, Server.findById. rewrite Hfound.
  by repeat split.
Qed.

Lemma updateContact_then_getContactById_witness :
  exists c,
    Client.getContactById
      (Client.run Samples.required
         (Client.updateContact (_id Samples.grace) Samples.adaDraft)
         Samples.online 0 (Client.mkWorld [Samples.grace] None)).1.2
      (_id Samples.grace) = Some c /\
    name c = str "Ada Lovelace".
Proof.
  destruct (updateContact_then_getContactById Samples.required
              Samples.online (Client.mkWorld [Samples.grace] None)
              (Client.run Samples.required
                 (Client.updateContact (_id Samples.grace) Samples.adaDraft)
                 Samples.online 0 (Client.mkWorld [Samples.grace] None)).1.2
              (_id Samples.grace) Samples.adaDraft
              [Client.UPDATE_CONTACT (_id Samples.grace)
                 (str "Ada Lovelace") (str "ada@example.com")
                 (str "555-0100");
               Client.GET_CONTACTS]
              ltac:(vm_compute; reflexivity))
    as (c & Hget & _ & Hname & _).
  exists c. split; [exact Hget | exact Hname].
Defined.

(** What a fulfilled [deleteContact] of the context leaves behind. *)
Lemma run_deleteContact_gone validators env w w' id sent :
  Server.unique_ids (Client.server w) ->
  Client.run validators (Client.deleteContact id) env 0 w
  = (sent, w', Ok ()) ->
  sent = [Client.DELETE_CONTACT id; Client.GET_CONTACTS] /\
  Client.getContactById w' id = None /\
  forall id', id' <> id ->
    Client.getContactById w' id' = Server.lookupId id' (Client.server w).
Proof.
  intros Huniq Hrun.
  apply (run_mutate_then_refresh_ok validators
           (Client.deleteContactMutation id) (fun _ => ())) in Hrun
    as (st1 & b & _ & _ & Hres & -> & -> & _).
  split; [done|]. simpl in Hres.
  assert (st1 = (Server.deleteFirst id (Client.server w)).1) as ->.
  { rewrite <- deleteContact_store. by rewrite Hres. }
  split.
  - rewrite getContactById_lookupId. by apply deleteFirst_gone.
  - intros id' Hne. rewrite getContactById_lookupId.
    by apply deleteFirst_other.
Qed.

(** X9. When [deleteContact] of the context is fulfilled and the server's
    identifiers are unique, [getContactById] no longer finds the
    identifier, and finds every other identifier exactly when the server
    had a record for it. *)
Theorem deleteContact_then_getContactById
    (validators : Contact -> bool) (env : nat -> Client.Env)
    (w w' : Client.World) (id : jsstring) (sent : list Client.Sent) :
  Server.unique_ids (Client.server w) ->
  Client.run validators (Client.deleteContact id) env 0 w
  = (sent, w', Ok ()) ->
  Client.getContactById w' id = None /\
  forall id', id' <> id ->
    Client.getContactById w' id' = Server.lookupId id' (Client.server w).
Proof.
  intros Huniq Hrun.
  by apply (run_deleteContact_gone _ _ _ _ _ _ Huniq) in Hrun as [_ ?].
Qed.

Lemma deleteContact_then_getContactById_witness :
  Client.getContactById
    (Client.run Samples.required (Client.deleteContact (_id Samples.ada))
       Samples.online 0
       (Client.mkWorld [Samples.ada; Samples.grace] None)).1.2
    (_id Samples.ada) = None.
Proof.
  apply (deleteContact_then_getContactById Samples.required Samples.online
           (Client.mkWorld [Samples.ada; Samples.grace] None)
           (Client.run Samples.required
              (Client.deleteContact (_id Samples.ada))
              Samples.online 0
              (Client.mkWorld [Samples.ada; Samples.grace] None)).1.2
           (_id Samples.ada)
           [Client.DELETE_CONTACT (_id Samples.ada); Client.GET_CONTACTS]).
  - unfold Server.unique_ids. simpl. apply NoDup_cons.
    split; [|apply NoDup_singleton].
    apply not_elem_of_cons. split; [discriminate | apply not_elem_of_nil].
  - vm_compute. reflexivity.
Defined.

(** * Further properties of [trim] and [split] *)
Section MoreTrimFacts.

Implicit Types (s : jsstring) (c : N).

Local Abbreviation spaces := (Forall (fun c => isWhiteSpace c = true)).
Local Abbreviation solid := (Forall (fun c => isWhiteSpace c = false)).

Lemma trimStart_pad ws s : spaces ws -> trimStart (ws ++ s) = trimStart s.
Proof. induction 1 as [|d ws Hd _ IH]; simpl; [done|]. by rewrite Hd. Qed.

Lemma trimStart_fixed c s :
  isWhiteSpace c = false -> trimStart (c :: s) = c :: s.
Proof. intros Hc. simpl. by rewrite Hc. Qed.

(** [trimStart] leaves nothing, or something that starts with a character
    that is not white space. *)
Lemma trimStart_shape s :
  trimStart s = [] \/
  exists c t, trimStart s = c :: t /\ isWhiteSpace c = false.
Proof.
  induction s as [|d s IH]; simpl; [by left|].
  destruct (isWhiteSpace d) eqn:Hd; [done|]. right. by exists d, s.
Qed.

Lemma trimStart_idemp s : trimStart (trimStart s) = trimStart s.
Proof.
  destruct (trimStart_shape s) as [->|(c & t & -> & Hc)]; [done|].
  by apply trimStart_fixed.
Qed.

Lemma trimStart_app_solid s c t ws :
  trimStart s = c :: t -> trimStart (s ++ ws) = c :: t ++ ws.
Proof.
  induction s as [|d s IH]; simpl; [done|].
  destruct (isWhiteSpace d); [done|]. by intros [= -> ->].
Qed.

Lemma trimEnd_pad s ws : spaces ws -> trimEnd (s ++ ws) = trimEnd s.
Proof.
  intros Hws. unfold trimEnd. rewrite rev_app_distr.
  rewrite trimStart_pad; [done|]. by apply Forall_rev.
Qed.

Lemma trimEnd_idemp s : trimEnd (trimEnd s) = trimEnd s.
Proof.
  unfold trimEnd. by rewrite rev_involutive, trimStart_idemp.
Qed.

(** [trimEnd] keeps a first character that is not white space. *)
Lemma trimEnd_cons c t :
  isWhiteSpace c = false -> exists t', trimEnd (c :: t) = c :: t'.
Proof.
  intros Hc. unfold trimEnd. simpl.
  destruct (trimStart_snoc (rev t) c Hc) as [s' ->].
  rewrite rev_app_distr. simpl. eauto.
Qed.

(** [trim] leaves nothing, or something that starts with a character that
    is not white space. *)
Lemma trim_shape s :
  trim s = [] \/ exists c t, trim s = c :: t /\ isWhiteSpace c = false.
Proof.
  unfold trim. destruct (trimStart_shape s) as [->|(c & t & -> & Hc)].
  - by left.
  - right. destruct (trimEnd_cons c t Hc) as [t' ->]. by exists c, t'.
Qed.

Lemma trim_idemp s : trim (trim s) = trim s.
Proof.
  destruct (trim_shape s) as [->|(c & t & Hs & Hc)]; [done|].
  unfold trim at 1. rewrite Hs, (trimStart_fixed c t Hc), <- Hs.
  unfold trim. apply trimEnd_idemp.
Qed.

(** White space around a string does not change what [trim] leaves. *)
Lemma trim_pad ws1 s ws2 :
  spaces ws1 -> spaces ws2 -> trim (ws1 ++ s ++ ws2) = trim s.
Proof.
  intros H1 H2. unfold trim. rewrite (trimStart_pad ws1 _ H1).
  destruct (trimStart_shape s) as [Hs|(c & t & Hs & Hc)].
  - rewrite Hs. apply trimStart_empty_iff in Hs.
    rewrite trimStart_spaces; [done|]. by apply Forall_app.
  - rewrite (trimStart_app_solid s c t ws2 Hs), Hs.
    change (c :: t ++ ws2) with ((c :: t) ++ ws2).
    by rewrite (trimEnd_pad (c :: t) ws2 H2).
Qed.

Lemma trim_empty_iff s : trim s = [] <-> spaces s.
Proof.
  split; [|apply trim_spaces].
  intros Hs. destruct (first_nonspace s) as [|(ws & c & rest & -> & Hws & Hc)];
    [done|].
  pose proof (trim_head ws c rest Hws Hc) as Hh. by rewrite Hs in Hh.
Qed.

(** The pieces [split] cuts have no white space in them. *)
Lemma splitGo_solid b piece s :
  solid piece -> Forall solid (splitGo b piece s).
Proof.
  revert b piece. induction s as [|c s IH]; intros b piece Hp; simpl.
  - by constructor.
  - destruct (isWhiteSpace c) eqn:Hc.
    + destruct b; [by apply IH | constructor; [done | by apply IH]].
    + apply IH. apply Forall_app. split; [done | by repeat constructor].
Qed.

(** Reading on from inside a word, the first piece starts with what was
    read of it. *)
Lemma splitGo_first piece s :
  exists more rest, splitGo false piece s = (piece ++ more) :: rest.
Proof.
  revert piece. induction s as [|c s IH]; intros piece; simpl.
  - exists [], []. by rewrite app_nil_r.
  - destruct (isWhiteSpace c).
    + exists [], (splitGo true [] s). by rewrite app_nil_r.
    + destruct (IH (piece ++ [c])) as (more & rest & ->).
      exists (c :: more), rest. by rewrite <- app_assoc.
Qed.

End MoreTrimFacts.

(** * Initials *)

Lemma join_nil (parts : list jsstring) : join [] parts = concat parts.
Proof.
  induction parts as [|part [|part' rest] IH]; simpl in *; [done| |].
  - by rewrite app_nil_r.
  - by rewrite IH.
Qed.

(** X10. [getInitials] upper-cases at most two characters, none of them
    white space: the first is the first character of the name that is not
    white space, and there is none exactly when the name is empty or all
    white space. *)
Theorem getInitials_at_most_two
    (toUpperCase : jsstring -> jsstring) (name : jsstring) :
  exists initials,
    Avatar.getInitials toUpperCase name = toUpperCase initials /\
    (length initials <= 2)%nat /\
    Forall (fun c => isWhiteSpace c = false) initials /\
    head initials = head (trim name) /\
    (initials = [] <-> Forall (fun c => isWhiteSpace c = true) name).
Proof.
  unfold Avatar.getInitials. eexists. split; [reflexivity|].
  rewrite join_nil.
  set (parts := filter (fun part => truthy part = true)
                  (splitSpaces (trim name))).
  assert (Forall (Forall (fun c => isWhiteSpace c = false)) parts) as Hsolid.
  { apply Forall_forall. intros part [_ Hin]%list_elem_of_filter.
    revert part Hin. apply Forall_forall, splitGo_solid. constructor. }
  assert (head (concat (take 2 (map (fun part => take 1 part) parts)))
          = head (trim name)) as Hhead.
  { subst parts. unfold splitSpaces.
    destruct (trim_shape name) as [->|(c & t & -> & Hc)]; [done|].
    simpl. rewrite Hc.
    destruct (splitGo_first [c] t) as (more & rest & ->). simpl.
    done. }
  split; [|split; [|split; [exact Hhead|]]].
  - destruct parts as [|[|c1 p1] [|[|c2 p2] rest]]; simpl; lia.
  - apply Forall_concat, Forall_take, Forall_fmap.
    eapply Forall_impl; [exact Hsolid|]. intros part Hp. simpl.
    by apply Forall_take.
  - rewrite <- trim_empty_iff. split.
    + intros Hi. rewrite Hi in Hhead. by destruct (trim name).
    + intros Ht. subst parts. by rewrite Ht.
Qed.

(** X11. White space before and after a name changes neither its avatar
    colours nor its initials. *)
Theorem avatar_ignores_surrounding_space
    (toUpperCase : jsstring -> jsstring) (before after name : jsstring) :
  Forall (fun c => isWhiteSpace c = true) before ->
  Forall (fun c => isWhiteSpace c = true) after ->
  Avatar.getAvatarPalette toUpperCase (before ++ name ++ after)
  = Avatar.getAvatarPalette toUpperCase name /\
  Avatar.getInitials toUpperCase (before ++ name ++ after)
  = Avatar.getInitials toUpperCase name.
Proof.
  intros Hb Ha. unfold Avatar.getAvatarPalette, Avatar.getInitials.
  by rewrite (trim_pad before name after Hb Ha).
Qed.

Lemma avatar_ignores_surrounding_space_witness :
  Avatar.getAvatarPalette Avatar.asciiUpperCase
    (str "  " ++ str "ada lovelace" ++ str " ")
  = Avatar.getAvatarPalette Avatar.asciiUpperCase (str "ada lovelace") /\
  Avatar.getInitials Avatar.asciiUpperCase
    (str "  " ++ str "ada lovelace" ++ str " ")
  = Avatar.getInitials Avatar.asciiUpperCase (str "ada lovelace").
Proof.
  apply (avatar_ignores_surrounding_space Avatar.asciiUpperCase
           (str "  ") (str " ") (str "ada lovelace"));
    repeat constructor.
Defined.

(** * The forms *)
Section FormFacts.

Implicit Types (f : NewContactScreen.FormState).

(** Case analysis on what [validate] looks at. *)
Ltac validate_cases n e p :=
  destruct (decide (n = [])) as [?Hn|?Hn];
  destruct (decide (e = [])) as [?He|?He];
  destruct (decide (p = [])) as [?Hp|?Hp];
  destruct (NewContactScreen.test NewContactScreen.emailPattern e) eqn:?Ht;
  rewrite ?(bool_decide_eq_true_2 (n = [])), ?(bool_decide_eq_false_2 (n = [])),
    ?(bool_decide_eq_true_2 (e = [])), ?(bool_decide_eq_false_2 (e = [])),
    ?(bool_decide_eq_true_2 (p = [])), ?(bool_decide_eq_false_2 (p = []))
    by done;
  simpl.

(** A payload is returned only for a name and a phone that are not empty
    once trimmed and an e-mail that is empty or well-formed; it carries
    the trimmed values and no error is set. *)
Lemma validate_Some f errs payload :
  NewContactScreen.validate f = (errs, Some payload) ->
  let n := trim (NewContactScreen.form_name f) in
  let e := trim (NewContactScreen.form_email f) in
  let p := trim (NewContactScreen.form_phone f) in
  errs = [] /\ payload = Client.mkDraft n e p /\ n <> [] /\ p <> [] /\
  (e = [] \/ NewContactScreen.test NewContactScreen.emailPattern e = true).
Proof.
  intros Hv n e p. revert Hv.
  unfold NewContactScreen.validate, NewContactScreen.falsy. fold n e p.
  validate_cases n e p; intros [= <- <-] || intros [=]; auto 10.
Qed.

(** [validate] returns [null] only with a message set. *)
Lemma validate_null_has_message f :
  (NewContactScreen.validate f).2 = None ->
  (NewContactScreen.validate f).1 <> [].
Proof.
  unfold NewContactScreen.validate, NewContactScreen.falsy.
  set (n := trim (NewContactScreen.form_name f)).
  set (e := trim (NewContactScreen.form_email f)).
  set (p := trim (NewContactScreen.form_phone f)).
  validate_cases n e p; done.
Qed.

Lemma validate_accepts n e p :
  n <> [] -> p <> [] ->
  (e = [] \/ NewContactScreen.test NewContactScreen.emailPattern e = true) ->
  trim n = n -> trim e = e -> trim p = p ->
  NewContactScreen.validate (NewContactScreen.mkForm n e p)
  = ([], Some (Client.mkDraft n e p)).
Proof.
  intros Hn Hp He En Ee Ep.
  unfold NewContactScreen.validate, NewContactScreen.falsy.
  cbn [NewContactScreen.form_name NewContactScreen.form_email
       NewContactScreen.form_phone].
  rewrite En, Ee, Ep.
  rewrite (bool_decide_eq_false_2 (n = [])), (bool_decide_eq_false_2 (p = []))
    by done.
  destruct He as [-> | ->]; [done|]. by rewrite andb_false_r.
Qed.

(** The two screens validate alike. *)
Lemma edit_validate_eq (f : EditContactScreen.FormState) :
  EditContactScreen.validate f
  = NewContactScreen.validate
      (NewContactScreen.mkForm (EditContactScreen.form_name f)
         (EditContactScreen.form_email f) (EditContactScreen.form_phone f)).
Proof. reflexivity. Qed.

End FormFacts.

(** Membership of a key in a list of keys written out. *)
Ltac key_mem :=
  repeat match goal with
  | H : _ ∈ [] |- _ => by apply elem_of_nil in H
  | H : _ ∈ _ :: _ |- _ =>
      apply elem_of_cons in H as [H|H]; [try discriminate H|]
  end.

Ltac key_iff :=
  split;
  [ intros Hk; key_mem; try done; try (by split)
  | intros Hk; try done; try (by destruct Hk);
    rewrite ?elem_of_cons; auto ].

(** X12. [validate] of the "Add Contact" screen sets one message per
    failing field and no other: one for the name exactly when it is empty
    once trimmed, one for the phone likewise, one for the e-mail exactly
    when it is neither empty once trimmed nor matched by the pattern; it
    returns [null] exactly when a message is set. *)
Theorem validate_errors_by_field (form : NewContactScreen.FormState) :
  let trimmedName := trim (NewContactScreen.form_name form) in
  let trimmedEmail := trim (NewContactScreen.form_email form) in
  let trimmedPhone := trim (NewContactScreen.form_phone form) in
  let keys := map fst (NewContactScreen.validate form).1 in
  (NewContactScreen.name_key ∈ keys <-> trimmedName = []) /\
  (NewContactScreen.email_key ∈ keys <->
     trimmedEmail <> [] /\
     NewContactScreen.test NewContactScreen.emailPattern trimmedEmail
     = false) /\
  (NewContactScreen.phone_key ∈ keys <-> trimmedPhone = []) /\
  NoDup keys /\
  ((NewContactScreen.validate form).2 = None <-> keys <> []).
Proof.
  intros n e p keys. subst keys.
  unfold NewContactScreen.validate, NewContactScreen.falsy. fold n e p.
  destruct (decide (n = [])) as [Hn|Hn];
    destruct (decide (e = [])) as [He|He];
    destruct (decide (p = [])) as [Hp|Hp];
    destruct (NewContactScreen.test NewContactScreen.emailPattern e) eqn:Ht;
    rewrite ?(bool_decide_eq_true_2 _ Hn), ?(bool_decide_eq_false_2 _ Hn),
      ?(bool_decide_eq_true_2 _ He), ?(bool_decide_eq_false_2 _ He),
      ?(bool_decide_eq_true_2 _ Hp), ?(bool_decide_eq_false_2 _ Hp);
    simpl;
    (split; [key_iff|split; [key_iff|split; [key_iff|split]]]);
    try (repeat (apply NoDup_cons; split; [intros Hk; key_mem|]);
         apply NoDup_nil_2);
    by split.
Qed.

(** X13. What the "Add Contact" screen accepts, the "Edit Contact" screen
    accepts unchanged: for a contact that holds the payload [validate]
    returned, the edit form loaded from it validates to the same payload
    with no message set. *)
Theorem saved_contact_revalidates
    (form : NewContactScreen.FormState)
    (errs : list (NewContactScreen.Key * string))
    (payload : Client.ContactDraft) (contact : Contact) :
  NewContactScreen.validate form = (errs, Some payload) ->
  name contact = Client.draft_name payload ->
  email contact = Client.draft_email payload ->
  phone contact = Client.draft_phone payload ->
  EditContactScreen.validate
    (EditContactScreen.loadForm EditContactScreen.emptyForm (Some contact))
  = ([], Some payload).
Proof.
  intros (_ & -> & Hn & Hp & He)%validate_Some Hname Hemail Hphone.
  simpl in *. rewrite edit_validate_eq. simpl.
  rewrite Hname, Hemail, Hphone.
  apply validate_accepts; auto using trim_idemp.
Qed.

Lemma saved_contact_revalidates_witness :
  EditContactScreen.validate
    (EditContactScreen.loadForm EditContactScreen.emptyForm
       (Some Samples.ada))
  = ([], Some Samples.adaDraft).
Proof.
  apply (saved_contact_revalidates
           (NewContactScreen.mkForm (str "  Ada Lovelace")
              (str "ada@example.com ") (str " 555-0100 "))
           [] Samples.adaDraft Samples.ada);
    vm_compute; reflexivity.
Defined.

(** * The handlers of the screens *)

(** X14. [handleSave] of the "Add Contact" screen does nothing outside the
    screen while a save is in flight or when the form is not valid: no
    document is sent, nothing is shown, no navigation happens and the
    world is as it was.  In flight the screen is untouched; for a form
    that is not valid its messages are set. *)
Theorem handleSave_blocked
    (validators : Contact -> bool) (env : nat -> Client.Env)
    (screen : NewContactScreen.Screen) (w : Client.World) :
  NewContactScreen.isSubmitting screen = true \/
  (NewContactScreen.validate (NewContactScreen.form screen)).2 = None ->
  exists screen',
    NewContactScreen.handleSave validators env screen w
    = ([], [], screen', w) /\
    NewContactScreen.form screen' = NewContactScreen.form screen /\
    NewContactScreen.isSubmitting screen'
    = NewContactScreen.isSubmitting screen /\
    (NewContactScreen.isSubmitting screen = true -> screen' = screen) /\
    (NewContactScreen.isSubmitting screen = false ->
       NewContactScreen.errors screen'
       = (NewContactScreen.validate (NewContactScreen.form screen)).1 /\
       NewContactScreen.errors screen' <> []).
Proof.
  unfold NewContactScreen.handleSave.
  destruct (NewContactScreen.isSubmitting screen) eqn:Hsub.
  - intros _. exists screen. by repeat split.
  - intros [?|Hnone]; [done|].
    pose proof (validate_null_has_message (NewContactScreen.form screen))
      as Haux.
    destruct (NewContactScreen.validate (NewContactScreen.form screen))
      as [errs [payload|]]; [done|].
    eexists. split; [reflexivity|]. simpl. repeat split; [done|].
    by apply Haux.
Qed.

Lemma handleSave_blocked_witness :
  exists screen',
    NewContactScreen.handleSave Samples.required Samples.online
      (NewContactScreen.mkScreen
         (NewContactScreen.mkForm (str "  ") (str "ada@example")
            (str "555-0100")) [] false)
      (Client.mkWorld [Samples.grace] None)
    = ([], [], screen', Client.mkWorld [Samples.grace] None) /\
    map fst (NewContactScreen.errors screen')
    = [NewContactScreen.name_key; NewContactScreen.email_key].
Proof.
  destruct (handleSave_blocked Samples.required Samples.online
              (NewContactScreen.mkScreen
                 (NewContactScreen.mkForm (str "  ") (str "ada@example")
                    (str "555-0100")) [] false)
              (Client.mkWorld [Samples.grace] None))
    as (screen' & Hrun & _ & _ & _ & Herr);
    [right; vm_compute; reflexivity|].
  exists screen'. split; [exact Hrun|].
  destruct (Herr eq_refl) as [He _]. rewrite He. vm_compute. reflexivity.
Defined.

(** What the operations of the context send. *)
Lemma run_addContact_sent validators env w payload :
  let doc :=
    Client.CREATE_CONTACT (Client.draft_name payload)
      (Client.draft_email payload) (Client.draft_phone payload) in
  (Client.run validators (Client.addContact payload) env 0 w).1.1 = [doc] \/
  (Client.run validators (Client.addContact payload) env 0 w).1.1
  = [doc; Client.GET_CONTACTS].
Proof.
  exact (run_mutate_then_refresh_sent validators
           (Client.createContact
              (Client.mkDraft (Client.draft_name payload)
                 (Client.draft_email payload) (Client.draft_phone payload)))
           (fun r => _id <$> Client.data r) env w).
Qed.


Lemma run_deleteContact_sent validators env w id :
  (Client.run validators (Client.deleteContact id) env 0 w).1.1
  = [Client.DELETE_CONTACT id] \/
  (Client.run validators (Client.deleteContact id) env 0 w).1.1
  = [Client.DELETE_CONTACT id; Client.GET_CONTACTS].
Proof.
  exact (run_mutate_then_refresh_sent validators
           (Client.deleteContactMutation id) (fun _ => ()) env w).
Qed.

(** X15. For a valid form and no save in flight, [handleSave] of the "Add
    Contact" screen sends the create mutation with the trimmed values, the
    name and the phone not empty, and at most the list query after it.  It
    ends with [isSubmitting] cleared and with exactly one of two things
    done: it navigated to the new contact, whose identifier is not empty
    and which [getContactById] finds with the values sent; or it showed
    the "Something went wrong" alert. *)
Theorem handleSave_outcome
    (validators : Contact -> bool) (env : nat -> Client.Env)
    (screen : NewContactScreen.Screen) (w : Client.World)
    (errs : list (NewContactScreen.Key * string))
    (payload : Client.ContactDraft) :
  NewContactScreen.isSubmitting screen = false ->
  NewContactScreen.validate (NewContactScreen.form screen)
  = (errs, Some payload) ->
  exists rest effect screen' w',
    NewContactScreen.handleSave validators env screen w
    = (Client.CREATE_CONTACT (Client.draft_name payload)
         (Client.draft_email payload) (Client.draft_phone payload) :: rest,
       [effect], screen', w') /\
    payload
    = Client.mkDraft
        (trim (NewContactScreen.form_name (NewContactScreen.form screen)))
        (trim (NewContactScreen.form_email (NewContactScreen.form screen)))
        (trim (NewContactScreen.form_phone (NewContactScreen.form screen)))
    /\
    Client.draft_name payload <> [] /\ Client.draft_phone payload <> [] /\
    screen' = NewContactScreen.mkScreen (NewContactScreen.form screen) []
                false /\
    ((rest = [Client.GET_CONTACTS] /\
      exists id c,
        id <> [] /\ effect = router_replace "/contacts/[id]" (Some id) /\
        Client.getContactById w' id = Some c /\
        name c = Client.draft_name payload /\
        email c = Client.draft_email payload /\
        phone c = Client.draft_phone payload)
     \/
     ((rest = [] \/ rest = [Client.GET_CONTACTS]) /\
      effect = Alert_alert "Something went wrong"
                 "We could not create the contact. Please try again.")).
Proof.
  intros Hsub Hval. unfold NewContactScreen.handleSave.
  rewrite Hsub, Hval.
  apply validate_Some in Hval as (-> & Hp & Hn & Hph & _).
  cbn [NewContactScreen.form NewContactScreen.isSubmitting].
  pose proof (run_addContact_sent validators env w payload) as Hsent.
  destruct (Client.run validators (Client.addContact payload) env 0 w)
    as [[sent w'] outcome] eqn:Hrun. simpl in Hsent.
  assert (exists rest,
            sent = Client.CREATE_CONTACT (Client.draft_name payload)
                     (Client.draft_email payload)
                     (Client.draft_phone payload) :: rest /\
            (rest = [] \/ rest = [Client.GET_CONTACTS]))
    as (rest & -> & Hrest).
  { destruct Hsent as [-> | ->]; eauto. }
  assert (Client.draft_name payload <> [] /\ Client.draft_phone payload <> [])
    as [Hn' Hph'] by by rewrite Hp.
  destruct outcome as [[id|]|ex];
    [destruct (truthy id) eqn:Hid|..];
    eexists rest, _, _, w'; (split; [reflexivity|]);
    (split; [exact Hp|]); (split; [exact Hn'|]); (split; [exact Hph'|]);
    (split; [reflexivity|]); try (right; by split).
  left. apply run_addContact_found in Hrun
    as ([= ->] & Hcached & c & Hfound & Hc).
  split; [done|]. exists id, c.
  rewrite (getContactById_refreshed w' id Hcached).
  split; [|by split].
  unfold truthy in Hid. by apply negb_true_iff, bool_decide_eq_false in Hid.
Qed.

Lemma handleSave_outcome_witness :
  exists rest effect screen' w',
    NewContactScreen.handleSave Samples.required Samples.online
      (NewContactScreen.mkScreen
         (NewContactScreen.mkForm (str "  Ada Lovelace")
            (str "ada@example.com ") (str " 555-0100 ")) [] false)
      (Client.mkWorld [Samples.grace] None)
    = (Client.CREATE_CONTACT (str "Ada Lovelace") (str "ada@example.com")
         (str "555-0100") :: rest, [effect], screen', w') /\
    NewContactScreen.isSubmitting screen' = false.
Proof.
  edestruct (handleSave_outcome Samples.required Samples.online
               (NewContactScreen.mkScreen
                  (NewContactScreen.mkForm (str "  Ada Lovelace")
                     (str "ada@example.com ") (str " 555-0100 ")) [] false)
               (Client.mkWorld [Samples.grace] None) [] Samples.adaDraft)
    as (rest & effect & screen' & w' & Hrun & _ & _ & _ & Hscreen & _);
    [reflexivity | vm_compute; reflexivity |].
  exists rest, effect, screen', w'. split; [exact Hrun|].
  rewrite Hscreen. reflexivity.
Defined.



(** X17. [requestDelete] of the "Contact" screen asks only when a contact
    is shown, and "Cancel" changes nothing.  On "Delete" it sends the
    delete mutation for the identifier of the contact shown and at most
    the list query after it; it then either goes to the list, the contact
    no longer being found in the cached list when the server's identifiers
    are unique, or shows the "Delete failed" alert. *)
Theorem requestDelete_outcome
    (validators : Contact -> bool) (env : nat -> Client.Env)
    (contact : option Contact) (pressed : ContactDetailsScreen.Button)
    (w w' : Client.World) (asked : bool)
    (sent : list Client.Sent) (effects : list UiEffect) :
  ContactDetailsScreen.requestDelete validators env contact pressed w
  = (asked, sent, effects, w') ->
  (asked = bool_decide (is_Some contact)) /\
  ((sent = [] /\ effects = [] /\ w' = w /\
    (contact = None \/ pressed = ContactDetailsScreen.Cancel)) \/
   exists c rest,
     contact = Some c /\ pressed = ContactDetailsScreen.Delete /\
     sent = Client.DELETE_CONTACT (_id c) :: rest /\
     ((rest = [Client.GET_CONTACTS] /\ effects = [router_replace "/" None] /\
       (Server.unique_ids (Client.server w) ->
          Client.getContactById w' (_id c) = None))
      \/
      ((rest = [] \/ rest = [Client.GET_CONTACTS]) /\
       effects = [Alert_alert "Delete failed"
                    "We could not remove this contact. Please try again."]))).
Proof.
  unfold ContactDetailsScreen.requestDelete.
  destruct contact as [c|];
    [|intros [= <- <- <- <-]; split; [done|]; left; repeat split; auto].
  destruct pressed;
    [intros [= <- <- <- <-]; split; [done|]; left; repeat split; auto|].
  pose proof (run_deleteContact_sent validators env w (_id c)) as Hsent.
  destruct (Client.run validators (Client.deleteContact (_id c)) env 0 w)
    as [[sent0 w0] outcome] eqn:Hrun. simpl in Hsent.
  intros [= <- <- <- <-]. split; [done|]. right. exists c.
  destruct outcome as [[]|ex].
  - eexists. do 2 (split; [done|]).
    destruct Hsent as [-> | ->].
    + apply (run_mutate_then_refresh_ok validators
               (Client.deleteContactMutation (_id c)) (fun _ => ())) in Hrun
        as (? & ? & _ & _ & _ & [=] & _).
    + split; [reflexivity|]. left. do 2 (split; [done|]).
      intros Huniq.
      by apply (run_deleteContact_gone _ _ _ _ _ _ Huniq) in Hrun
        as (_ & ? & _).
  - destruct Hsent as [-> | ->]; eexists; do 3 (split; [done|]);
      right; split; auto.
Qed.

Lemma requestDelete_outcome_witness :
  exists w',
    ContactDetailsScreen.requestDelete Samples.required Samples.online
      (Some Samples.ada) ContactDetailsScreen.Delete
      (Client.mkWorld [Samples.ada; Samples.grace]
         (Some [Samples.ada; Samples.grace]))
    = (true,
       [Client.DELETE_CONTACT (_id Samples.ada); Client.GET_CONTACTS],
       [router_replace "/" None], w') /\
    Client.getContactById w' (_id Samples.ada) = None.
Proof.
  destruct (ContactDetailsScreen.requestDelete Samples.required
              Samples.online (Some Samples.ada) ContactDetailsScreen.Delete
              (Client.mkWorld [Samples.ada; Samples.grace]
                 (Some [Samples.ada; Samples.grace])))
    as [[[asked sent] effects] w'] eqn:Hrun.
  pose proof Hrun as Hvalue. vm_compute in Hvalue.
  injection Hvalue as <- <- <- Hw.
  exists w'. split; [reflexivity|].
  destruct (requestDelete_outcome _ _ _ _ _ _ _ _ _ Hrun)
    as (_ & [(Hsent & _) | (c & rest & Hc & _ & _
                            & [(_ & _ & Hgone) | (_ & Heff)])]);
    [discriminate Hsent | | discriminate Heff].
  injection Hc as <-. apply Hgone.
  unfold Server.unique_ids. simpl. apply NoDup_cons.
  split; [|apply NoDup_singleton].
  apply not_elem_of_cons. split; [discriminate | apply not_elem_of_nil].
Defined.

(** * The contact list screen *)
Section ListFacts.

Import ContactListScreen.

Implicit Types (a b c : jsstring) (m : list (jsstring * list Contact)).

(** ** The order of [sort()] *)

Lemma codeUnitLt_irrefl a : codeUnitLt a a = false.
Proof.
  induction a as [|x a IH]; simpl; [done|].
  by rewrite N.ltb_irrefl, N.eqb_refl, IH.
Qed.

Lemma codeUnitLt_trans a b c :
  codeUnitLt a b = true -> codeUnitLt b c = true -> codeUnitLt a c = true.
Proof.
  revert b c. induction a as [|x a IH]; intros [|y b] [|z c]; simpl;
    try done.
  rewrite !orb_true_iff, !andb_true_iff, !N.ltb_lt, !N.eqb_eq.
  intros [Hxy|[-> Hab]] [Hyz|[-> Hbc]].
  - left. lia.
  - by left.
  - by left.
  - right. split; [done|]. by eapply IH.
Qed.

Lemma codeUnitLt_total a b :
  a <> b -> codeUnitLt a b = true \/ codeUnitLt b a = true.
Proof.
  revert b. induction a as [|x a IH]; intros [|y b]; simpl; try done;
    [by left | by right|].
  intros Hne. rewrite !orb_true_iff, !andb_true_iff, !N.ltb_lt, !N.eqb_eq.
  destruct (N.lt_trichotomy x y) as [?|[->|?]]; [by left; left| |by right; left].
  destruct (IH b) as [?|?]; [congruence | left; by right | right; by right].
Qed.

Lemma insertKey_elem_of k key keys :
  k ∈ insertKey key keys <-> k = key \/ k ∈ keys.
Proof.
  induction keys as [|key' keys IH]; simpl.
  - rewrite list_elem_of_singleton, elem_of_nil. tauto.
  - destruct (codeUnitLt key' key); rewrite !elem_of_cons, ?IH; tauto.
Qed.

Lemma insertKey_sorted key keys :
  StronglySorted (fun a b => codeUnitLt a b = true) keys ->
  key ∉ keys ->
  StronglySorted (fun a b => codeUnitLt a b = true) (insertKey key keys).
Proof.
  induction 1 as [|key' keys Hsorted IH Hall]; simpl; intros Hnotin.
  - repeat constructor.
  - apply not_elem_of_cons in Hnotin as [Hne Hnotin].
    destruct (codeUnitLt key' key) eqn:Hlt.
    + constructor; [by apply IH|].
      apply Forall_forall. intros k [->|Hk]%insertKey_elem_of; [done|].
      by eapply Forall_forall in Hall.
    + assert (codeUnitLt key key' = true) as Hlt'.
      { destruct (codeUnitLt_total key key' Hne); congruence. }
      constructor; [by constructor|].
      constructor; [done|].
      eapply Forall_impl; [exact Hall|]. intros k Hk. simpl in *.
      by eapply codeUnitLt_trans.
Qed.

Lemma sort_elem_of k keys : k ∈ sort keys <-> k ∈ keys.
Proof.
  unfold sort. induction keys as [|key keys IH]; simpl; [done|].
  rewrite insertKey_elem_of, elem_of_cons, IH. tauto.
Qed.

(** Keys that are all different come out of [sort()] in strictly
    increasing order. *)
Lemma sort_sorted keys :
  NoDup keys ->
  StronglySorted (fun a b => codeUnitLt a b = true) (sort keys).
Proof.
  unfold sort. induction 1 as [|key keys Hnotin Hnodup IH]; simpl.
  - constructor.
  - apply insertKey_sorted; [done|]. by rewrite sort_elem_of.
Qed.

(** ** The map [reduce] builds *)

Lemma get_None key m : get key m = None <-> key ∉ map fst m.
Proof.
  induction m as [|[k v] m IH]; simpl.
  - split; [intros _; apply not_elem_of_nil | done].
  - rewrite not_elem_of_cons. case_decide; split; try done.
    + intros [? _]. congruence.
    + intros ?. split; [congruence | by apply IH].
    + intros [_ ?]. by apply IH.
Qed.

Lemma get_snoc key key' v m :
  get key (m ++ [(key', v)])
  = match get key m with
    | Some x => Some x
    | None => if decide (key' = key) then Some v else None
    end.
Proof.
  induction m as [|[k x] m IH]; simpl; [done|].
  destruct (decide (k = key)); [done | exact IH].
Qed.

Lemma get_push key key' item m :
  get key (push key' item m)
  = if decide (key = key') then (fun v => v ++ [item]) <$> get key m
    else get key m.
Proof.
  induction m as [|[k v] m IH]; simpl; [by case_decide|].
  destruct (decide (k = key')) as [->|Hk]; simpl.
  - destruct (decide (key' = key)) as [->|Hne].
    + by rewrite decide_True.
    + rewrite decide_False by done. done.
  - destruct (decide (k = key)) as [->|Hne].
    + by rewrite decide_False.
    + done.
Qed.

Lemma push_keys key item m : map fst (push key item m) = map fst m.
Proof.
  induction m as [|[k v] m IH]; simpl; [done|].
  case_decide; simpl; [done | by rewrite IH].
Qed.

Lemma filter_key_absent {A} (f : A -> jsstring) key (l : list A) :
  key ∉ map f l -> filter (fun x => f x = key) l = [].
Proof.
  induction l as [|x l IH]; simpl; [done|].
  intros [Hne Hnotin]%not_elem_of_cons.
  rewrite filter_cons_False by congruence. by apply IH.
Qed.

Variable toUpperCase : jsstring -> jsstring.

Lemma letterOf_not_empty item : letterOf toUpperCase item <> [].
Proof.
  unfold letterOf. destruct (truthy _) eqn:Ht; [|done].
  unfold truthy in Ht. by apply negb_true_iff, bool_decide_eq_false in Ht.
Qed.

Lemma addToSection_get key m item :
  get key (addToSection toUpperCase m item)
  = if decide (key = letterOf toUpperCase item)
    then Some (default [] (get key m) ++ [item])
    else get key m.
Proof.
  unfold addToSection. set (letter := letterOf toUpperCase item).
  rewrite get_push.
  destruct (get letter m) as [v|] eqn:Hget.
  - case_decide; [subst key; by rewrite Hget | done].
  - rewrite get_snoc. case_decide as Hk.
    + subst key. rewrite Hget. by rewrite decide_True.
    + destruct (get key m); [done|]. rewrite decide_False; [done|congruence].
Qed.

Lemma addToSection_keys m item :
  map fst (addToSection toUpperCase m item)
  = map fst m
    ++ (if get (letterOf toUpperCase item) m is None
        then [letterOf toUpperCase item] else []).
Proof.
  unfold addToSection. rewrite push_keys.
  destruct (get _ m); [by rewrite app_nil_r | by rewrite map_app].
Qed.

(** After [reduce], each letter met is a key, once, and holds the contacts
    filed under it in the order of the list. *)
Lemma sectionsMap_spec (contacts : list Contact) :
  let m := foldl (addToSection toUpperCase) [] contacts in
  NoDup (map fst m) /\
  forall key,
    get key m
    = if decide (key ∈ map (letterOf toUpperCase) contacts)
      then Some (filter (fun contact => letterOf toUpperCase contact = key)
                   contacts)
      else None.
Proof.
  induction contacts as [|item contacts IH] using rev_ind; simpl.
  - split; [apply NoDup_nil_2 | done].
  - rewrite foldl_app. simpl. destruct IH as [Hnodup Hget]. split.
    + rewrite addToSection_keys.
      destruct (get _ _) eqn:Hnone; [by rewrite app_nil_r|].
      apply NoDup_app. split; [done|]. split; [|apply NoDup_singleton].
      intros k Hk ->%list_elem_of_singleton. by apply get_None in Hnone.
    + intros key. rewrite addToSection_get, map_app, filter_app, Hget.
      simpl. destruct (decide (key = letterOf toUpperCase item)) as [->|Hne].
      * rewrite (decide_True (P := _ ∈ _ ++ _));
          [|apply elem_of_app; right; left].
        rewrite filter_cons_True by done. rewrite filter_nil.
        case_decide as Hin; [done|]. simpl.
        by rewrite (filter_key_absent _ _ _ Hin).
      * rewrite filter_cons_False by done. rewrite filter_nil, app_nil_r.
        case_decide as Hin.
        -- rewrite decide_True; [done | apply elem_of_app; by left].
        -- rewrite decide_False; [done|].
           intros [?|[->|?%elem_of_nil]%elem_of_cons]%elem_of_app; done.
Qed.

(** Filing a list under keys that are all different and cover it moves
    each element to one place. *)
Lemma concat_filters {A} (f : A -> jsstring) (keys : list jsstring)
    (l : list A) :
  NoDup keys ->
  (forall x, x ∈ l -> f x ∈ keys) ->
  concat (map (fun key => filter (fun x => f x = key) l) keys) ≡ₚ l.
Proof.
  intros Hnodup. revert l. induction Hnodup as [|key keys Hnotin _ IH];
    intros l Hcover; simpl.
  - destruct l as [|x l]; [done|].
    by destruct (not_elem_of_nil (f x) (Hcover x ltac:(left))).
  - set (others := filter (fun x => ~ f x = key) l).
    assert (map (fun k => filter (fun x => f x = k) l) keys
            = map (fun k => filter (fun x => f x = k) others) keys) as ->.
    { apply list_fmap_ext. intros i k Hk%list_elem_of_lookup_2.
      subst others. symmetry. apply list_filter_filter_l.
      intros x -> ->. done. }
    rewrite IH.
    + apply filter_app_complement.
    + intros x [Hx Hin]%list_elem_of_filter.
      specialize (Hcover x Hin). by apply elem_of_cons in Hcover as [?|?].
Qed.

End ListFacts.

Lemma strictly_sorted_NoDup (keys : list jsstring) :
  StronglySorted (fun a b => ContactListScreen.codeUnitLt a b = true) keys ->
  NoDup keys.
Proof.
  induction 1 as [|key keys _ IH Hall]; [apply NoDup_nil_2|].
  apply NoDup_cons. split; [|done]. intros Hin.
  eapply Forall_forall in Hall; [|exact Hin].
  simpl in Hall. by rewrite codeUnitLt_irrefl in Hall.
Qed.

(** X18. The sections of the list screen file every contact shown exactly
    once: the titles are in strictly increasing order of their code units
    (so no title comes twice), no title and no section is empty, each
    section holds the contacts whose letter is its title in the order of
    the list, and the sections together are a rearrangement of the
    list. *)
Theorem sections_partition
    (toUpperCase : jsstring -> jsstring) (contacts : list Contact) :
  let secs := ContactListScreen.sections toUpperCase contacts in
  StronglySorted (fun a b => ContactListScreen.codeUnitLt a b = true)
    (map ContactListScreen.title secs) /\
  (forall s, s ∈ secs ->
     ContactListScreen.title s <> [] /\ ContactListScreen.data s <> [] /\
     ContactListScreen.data s
     = filter (fun contact =>
                 ContactListScreen.letterOf toUpperCase contact
                 = ContactListScreen.title s) contacts) /\
  (forall contact, contact ∈ contacts ->
     exists s, s ∈ secs /\
       ContactListScreen.title s
       = ContactListScreen.letterOf toUpperCase contact) /\
  concat (map ContactListScreen.data secs) ≡ₚ contacts.
Proof.
  intros secs. subst secs. unfold ContactListScreen.sections.
  destruct (sectionsMap_spec toUpperCase contacts) as [Hnodup Hget].
  set (m := foldl (ContactListScreen.addToSection toUpperCase) [] contacts)
    in *.
  set (keys := ContactListScreen.sort (map fst m)).
  assert (StronglySorted
            (fun a b => ContactListScreen.codeUnitLt a b = true) keys)
    as Hsorted by by apply sort_sorted.
  assert (forall key, key ∈ keys <->
            key ∈ map (ContactListScreen.letterOf toUpperCase) contacts)
    as Hkeys.
  { intros key. subst keys. rewrite sort_elem_of.
    pose proof (get_None key m) as Hnone. rewrite Hget in Hnone.
    case_decide; split; try done.
    - intros _. destruct (decide (key ∈ map fst m)) as [|Hn]; [done|].
      by apply Hnone in Hn.
    - intros Hin. by destruct (proj1 Hnone eq_refl). }
  assert (forall key, key ∈ keys ->
            default [] (ContactListScreen.get key m)
            = filter (fun contact =>
                        ContactListScreen.letterOf toUpperCase contact = key)
                contacts) as Hdata.
  { intros key Hin%Hkeys. rewrite Hget. by rewrite decide_True. }
  split; [|split; [|split]].
  - by rewrite <- list_fmap_compose, list_fmap_id.
  - intros s (key & -> & Hin)%list_elem_of_fmap. simpl.
    rewrite (Hdata key Hin).
    apply Hkeys in Hin as (contact & -> & Hc)%list_elem_of_fmap.
    split; [apply letterOf_not_empty|]. split; [|done].
    intros Hnil.
    assert (contact ∈ filter
              (fun x => ContactListScreen.letterOf toUpperCase x
                        = ContactListScreen.letterOf toUpperCase contact)
              contacts) as Hin by by apply list_elem_of_filter.
    rewrite Hnil in Hin. by apply elem_of_nil in Hin.
  - intros contact Hc. eexists. split.
    + apply list_elem_of_fmap. eexists. split; [reflexivity|].
      apply Hkeys. by apply list_elem_of_fmap_2.
    + done.
  - rewrite <- list_fmap_compose.
    rewrite (list_fmap_ext _
               (fun key => filter (fun contact =>
                  ContactListScreen.letterOf toUpperCase contact = key)
                  contacts)).
    + apply concat_filters; [by apply strictly_sorted_NoDup|].
      intros contact Hc. apply Hkeys. by apply list_elem_of_fmap_2.
    + intros i key Hin%list_elem_of_lookup_2. simpl. by apply Hdata.
Qed.

(** * Searching *)

Lemma startsWith_spec (s prefix : jsstring) :
  startsWith s prefix = true <-> exists post, s = prefix ++ post.
Proof.
  revert s. induction prefix as [|p prefix IH]; intros [|c s]; simpl.
  - split; [eauto | done].
  - split; [eauto | done].
  - split; [done | by intros (? & ?)].
  - idtac.
    + rewrite andb_true_iff, N.eqb_eq, IH. split.
      * intros [-> (post & ->)]. eauto.
      * intros (post & [= -> ->]). eauto.
Qed.

Lemma includes_spec (s needle : jsstring) :
  includes s needle = true <-> exists pre post, s = pre ++ needle ++ post.
Proof.
  induction s as [|c s IH]; cbn [includes].
  - rewrite orb_false_r, startsWith_spec. split.
    + intros (post & ->). by exists [], post.
    + intros (pre & post & Hs). symmetry in Hs.
      apply app_eq_nil in Hs as [-> Hs]. exists post. by rewrite Hs.
  - rewrite orb_true_iff, startsWith_spec, IH. split.
    + intros [(post & ->) | (pre & post & ->)].
      * by exists [], post.
      * by exists (c :: pre), post.
    + intros ([|c' pre] & post & Hs); simpl in Hs.
      * left. eauto.
      * injection Hs as -> ->. right. eauto.
Qed.

(** X19. The search of the list screen shows every contact for a query
    that is empty or all white space (lower-casing the empty string giving
    the empty string).  For any other query it shows, in the order of the
    list, exactly the contacts whose name, e-mail and phone, the empty
    ones left out, joined by single spaces and lower-cased, contain the
    trimmed and lower-cased query. *)
Theorem filteredContacts_shows_matches
    (toLowerCase : jsstring -> jsstring) (query : jsstring)
    (contacts : list Contact) :
  (toLowerCase [] = [] ->
   Forall (fun c => isWhiteSpace c = true) query ->
   ContactListScreen.filteredContacts toLowerCase query contacts = contacts)
  /\
  sublist (ContactListScreen.filteredContacts toLowerCase query contacts)
    contacts /\
  (toLowerCase (trim query) <> [] ->
   forall contact,
     contact ∈ ContactListScreen.filteredContacts toLowerCase query contacts
     <->
     contact ∈ contacts /\
     exists pre post,
       toLowerCase
         (join [32]
            (filter (fun field => truthy field = true)
               [name contact; email contact; phone contact]))
       = pre ++ toLowerCase (trim query) ++ post).
Proof.
  unfold ContactListScreen.filteredContacts.
  split; [|split].
  - intros Hnil Hws. by rewrite (trim_spaces query Hws), Hnil.
  - destruct (negb _); [done | apply sublist_filter].
  - intros Hne contact.
    assert (truthy (toLowerCase (trim query)) = true) as ->.
    { unfold truthy. by rewrite bool_decide_eq_false_2. }
    cbn [negb].
    by rewrite list_elem_of_filter, includes_spec, (comm and).
Qed.

Lemma filteredContacts_shows_matches_witness :
  ContactListScreen.filteredContacts ContactListScreen.asciiLowerCase
    (str "   ") [Samples.ada; Samples.grace]
  = [Samples.ada; Samples.grace] /\
  (Samples.ada
     ∈ ContactListScreen.filteredContacts ContactListScreen.asciiLowerCase
         (str " LOVE ") [Samples.ada; Samples.grace]).
Proof.
  split.
  - apply (proj1 (filteredContacts_shows_matches
                    ContactListScreen.asciiLowerCase (str "   ")
                    [Samples.ada; Samples.grace]));
      [reflexivity | repeat constructor].
  - apply (proj2 (proj2 (filteredContacts_shows_matches
                           ContactListScreen.asciiLowerCase (str " LOVE ")
                           [Samples.ada; Samples.grace]))
             ltac:(discriminate) Samples.ada).
    split; [left|].
    exists (str "ada "), (str "lace ada@example.com 555-0100").
    reflexivity.
Defined.

(** * The letter a contact is filed under *)
Section LetterFacts.

Implicit Types (s word : jsstring).

Lemma splitGo_cons (b : bool) (piece : jsstring) (c : N) s :
  splitGo b piece (c :: s)
  = if isWhiteSpace c then
      if b then splitGo true [] s else piece :: splitGo true [] s
    else splitGo false (piece ++ [c]) s.
Proof. reflexivity. Qed.

(** A word is one piece. *)
Lemma splitGo_word b piece c word :
  Forall (fun c => isWhiteSpace c = false) (c :: word) ->
  splitGo b piece (c :: word) = [piece ++ c :: word].
Proof.
  intros Hsolid. change (c :: word) with ([c] ++ word).
  revert b piece c Hsolid. induction word as [|d word IH];
    intros b piece c [Hc Hword]%Forall_cons; simpl; rewrite Hc.
  - done.
  - apply Forall_cons in Hword as [Hd Hword'].
    specialize (IH false (piece ++ [c]) d (Forall_cons_2 _ _ _ Hd Hword')).
    simpl in IH. rewrite Hd in *. rewrite IH. by rewrite <- app_assoc.
Qed.

(** The last piece is the word after the last white space. *)
Lemma splitGo_last b piece s sp c word :
  isWhiteSpace sp = true ->
  Forall (fun c => isWhiteSpace c = false) (c :: word) ->
  last (splitGo b piece (s ++ sp :: c :: word)) = Some (c :: word).
Proof.
  intros Hsp Hsolid. revert b piece.
  assert (forall (b : bool) (piece : jsstring) (R : list jsstring),
            last R = Some (c :: word) ->
            last (if b then R else piece :: R) = Some (c :: word)) as Hskip.
  { intros [] piece R HR; [done|]. destruct R; [done|]. by simpl in *. }
  induction s as [|d s IH]; intros b piece.
  - cbn [app]. rewrite splitGo_cons, Hsp. apply Hskip.
    by rewrite (splitGo_word true [] c word Hsolid).
  - cbn [app]. rewrite splitGo_cons.
    destruct (isWhiteSpace d); [|apply IH]. apply Hskip, IH.
Qed.

End LetterFacts.

(** X20. The list screen files a contact under the first character of
    the last word of its trimmed name, in upper case, or under [#] when
    upper-casing gives nothing: for a name of one word that is its first
    character, for a name of several words the first character after the
    last white space.  A name that is empty or all white space is filed
    under [#] (upper-casing the empty string giving the empty string). *)
Theorem letterOf_last_word
    (toUpperCase : jsstring -> jsstring) (item : Contact) :
  let letter c :=
    if truthy (toUpperCase [c]) then toUpperCase [c] else [35] in
  (forall c word,
     trim (name item) = c :: word ->
     Forall (fun c => isWhiteSpace c = false) (c :: word) ->
     ContactListScreen.letterOf toUpperCase item = letter c) /\
  (forall before sp c word,
     trim (name item) = before ++ sp :: c :: word ->
     isWhiteSpace sp = true ->
     Forall (fun c => isWhiteSpace c = false) (c :: word) ->
     ContactListScreen.letterOf toUpperCase item = letter c) /\
  (toUpperCase [] = [] ->
   Forall (fun c => isWhiteSpace c = true) (name item) ->
   ContactListScreen.letterOf toUpperCase item = [35]).
Proof.
  intros letter. unfold ContactListScreen.letterOf, splitSpaces.
  split; [|split].
  - intros c word -> Hsolid. by rewrite (splitGo_word false [] c word Hsolid).
  - intros before sp c word -> Hsp Hsolid.
    pose proof (splitGo_last false [] before sp c word Hsp Hsolid) as Hlast.
    destruct (splitGo false [] (before ++ sp :: c :: word)) as [|p ps];
      [done|].
    cbn [length Nat.ltb Nat.leb]. by rewrite Hlast.
  - intros Hnil Hws. rewrite (trim_spaces _ Hws). simpl. by rewrite Hnil.
Qed.

Lemma letterOf_last_word_witness :
  ContactListScreen.letterOf Avatar.asciiUpperCase Samples.ada = str "L" /\
  ContactListScreen.letterOf Avatar.asciiUpperCase
    (mkContact (str "1") (str "  ") [] [] 0 0) = str "#".
Proof.
  split.
  - apply (proj1 (proj2 (letterOf_last_word Avatar.asciiUpperCase
                           Samples.ada))
             (str "Ada") 32 76 (str "ovelace"));
      [reflexivity | reflexivity | repeat constructor].
  - apply (proj2 (proj2 (letterOf_last_word Avatar.asciiUpperCase
                           (mkContact (str "1") (str "  ") [] [] 0 0))));
      [reflexivity | repeat constructor].
Defined.
